(** * frmz: schema inference, deep mutation wrapper and FormData flattening

    A shallow embedding of [src/index.ts].  The three recursive walks of the
    source ([inferSchema], [createDeepProxy], [appendToFormData]), the [set]
    trap of [handler] and the entry point [frmz] are transcribed as functions
    over a type of JavaScript values; the host facilities they call
    ([typeof], [String], [structuredClone], [Proxy], [Reflect.set],
    [FormData]) and the validator ([zod]) are modelled beside them.

    Scope of the model.  Values are finite trees: no cycle, and each object
    in one place; module [Heap] models the references of the host where an
    object is shared between the caller and the handle.
    Objects are ordinary and extensible, with data properties only; of their
    properties the own, enumerable, string-keyed ones are modelled.  The
    identity of an object matters to the source for blobs only, and is kept
    for blobs only. *)

From Stdlib Require Import List String Ascii ZArith Bool Lia DecimalString.
Import ListNotations.
Open Scope string_scope.

(** ** JavaScript values *)

(** Numbers are IEEE doubles in the host; the development covers the
    integer-valued ones and [NaN]. *)
Inductive number :=
| Num (z : Z)
| NaN.

(** Values whose [typeof] is not ["object"], together with [null]. *)
Inductive scalar :=
| SUndefined
| SNull
| SBoolean (b : bool)
| SNumber (n : number)
| SString (s : string)
| SSymbol (description : string)
| SFunction (source : string).

(** A [Blob] or [File].  [blob_id] is the identity of the JavaScript object
    (two blobs are the same reference exactly when their ids agree);
    [blob_bytes] is the content it gives access to. *)
Record Blob := mkBlob {
  blob_id : nat;
  blob_is_file : bool;
  blob_bytes : string
}.

Inductive jsclass :=
| ClsObject
| ClsDate (time : Z).

(** Objects carry a flag [proxied]: whether a [Proxy] with [handler] stands
    in front of them.  Reads go through a proxy unchanged (the handler has a
    [set] trap only), so a proxied object and its target are one node here.
    An array is a list of slots, [None] being a hole.  An object lists its own
    enumerable string-keyed properties in iteration order; the names are
    ordinary ones ([__proto__] is not among them). *)
Unset Elimination Schemes.
Inductive value :=
| VScalar (s : scalar)
| VBlob (proxied : bool) (b : Blob)
| VArray (proxied : bool) (items : list (option value))
| VObject (proxied : bool) (cls : jsclass) (fields : list (string * value)).
Set Elimination Schemes.

Definition undefined : value := VScalar SUndefined.
Definition null : value := VScalar SNull.

Section ValueInduction.
Variable P : value -> Prop.
Hypothesis Hscalar : forall s, P (VScalar s).
Hypothesis Hblob : forall px b, P (VBlob px b).
Hypothesis Harray : forall px items,
    Forall (fun slot => match slot with Some v => P v | None => True end) items ->
    P (VArray px items).
Hypothesis Hobject : forall px cls fields,
    Forall (fun kv => P (snd kv)) fields -> P (VObject px cls fields).

Fixpoint value_nested_ind (v : value) : P v :=
  match v with
  | VScalar s => Hscalar s
  | VBlob px b => Hblob px b
  | VArray px items =>
      Harray px items
        ((fix slots (xs : list (option value)) :=
            match xs return Forall _ xs with
            | [] => Forall_nil _
            | None :: rest => Forall_cons None I (slots rest)
            | Some x :: rest => Forall_cons (Some x) (value_nested_ind x) (slots rest)
            end) items)
  | VObject px cls fields =>
      Hobject px cls fields
        ((fix props (xs : list (string * value)) :=
            match xs return Forall _ xs with
            | [] => Forall_nil _
            | kv :: rest => Forall_cons kv (value_nested_ind (snd kv)) (props rest)
            end) fields)
  end.
End ValueInduction.

(** ** Host operations *)

Definition typeof (v : value) : string :=
  match v with
  | VScalar SUndefined => "undefined"
  | VScalar SNull => "object"
  | VScalar (SBoolean _) => "boolean"
  | VScalar (SNumber _) => "number"
  | VScalar (SString _) => "string"
  | VScalar (SSymbol _) => "symbol"
  | VScalar (SFunction _) => "function"
  | VBlob _ _ | VArray _ _ | VObject _ _ _ => "object"
  end.

Definition is_null (v : value) : bool :=
  match v with VScalar SNull => true | _ => false end.

Definition is_undefined (v : value) : bool :=
  match v with VScalar SUndefined => true | _ => false end.

Definition instanceof_Blob (v : value) : bool :=
  match v with VBlob _ _ => true | _ => false end.

Definition instanceof_File (v : value) : bool :=
  match v with VBlob _ b => blob_is_file b | _ => false end.

Definition Array_isArray (v : value) : bool :=
  match v with VArray _ _ => true | _ => false end.

(** A string is truthy when it is not empty. *)
Definition truthy (s : string) : bool := negb (s =? "").

Definition string_of_nat (i : nat) : string :=
  NilZero.string_of_uint (Nat.to_uint i).

Definition string_of_Z (z : Z) : string :=
  NilZero.string_of_int (Z.to_int z).

(** [String(x)] for the values the source applies it to. *)
Definition String_ (s : scalar) : string :=
  match s with
  | SUndefined => "undefined"
  | SNull => "null"
  | SBoolean true => "true"
  | SBoolean false => "false"
  | SNumber (Num z) => string_of_Z z
  | SNumber NaN => "NaN"
  | SString t => t
  | SSymbol d => "Symbol(" ++ d ++ ")"
  | SFunction src => src
  end.

(** ** Type guards *)

Definition isProxiable (v : value) : bool :=
  (typeof v =? "object") && negb (is_null v).

Definition isBlobLike (v : value) : bool :=
  instanceof_Blob v || instanceof_File v.

(** ** Proxy setup *)

(** [createDeepProxy] replaces every property that holds a proxiable,
    non-blob value by its deep proxy and returns a proxy of the target.
    [new Proxy] throws on a non-object; every call site passes an object. *)
Fixpoint createDeepProxy (target : value) : value :=
  match target with
  | VScalar s => VScalar s
  | VBlob _ b => VBlob true b
  | VArray _ items =>
      VArray true
        (map (fun slot =>
                match slot with
                | Some v =>
                    Some (if isProxiable v && negb (isBlobLike v)
                          then createDeepProxy v
                          else v)
                | None => None
                end) items)
  | VObject _ cls fields =>
      VObject true cls
        (map (fun kv =>
                let v := snd kv in
                (fst kv,
                 if isProxiable v && negb (isBlobLike v)
                 then createDeepProxy v
                 else v)) fields)
  end.

(** A property key: a name, or an array index. *)
Inductive property :=
| PName (k : string)
| PIndex (i : nat).

Definition property_key (p : property) : string :=
  match p with
  | PName k => k
  | PIndex i => string_of_nat i
  end.

Fixpoint set_field (k : string) (v : value) (fields : list (string * value))
  : list (string * value) :=
  match fields with
  | [] => [(k, v)]
  | (k', v') :: rest =>
      if k' =? k then (k, v) :: rest else (k', v') :: set_field k v rest
  end.

(** Writing past the end of an array extends it, leaving holes. *)
Fixpoint set_index (i : nat) (v : value) (items : list (option value))
  : list (option value) :=
  match i, items with
  | O, [] => [Some v]
  | O, _ :: rest => Some v :: rest
  | S j, [] => None :: set_index j v []
  | S j, x :: rest => x :: set_index j v rest
  end.

(** [Reflect.set(target, property, value)] on an ordinary, extensible
    target.  A new property goes last in iteration order (the host lists the
    index-like names of an object first; their order is not modelled).  A
    named property of an array (which includes [length]) and a property of a
    blob are not modelled: [None]. *)
Definition Reflect_set (target : value) (p : property) (v : value) : option value :=
  match target, p with
  | VObject px cls fields, _ => Some (VObject px cls (set_field (property_key p) v fields))
  | VArray px items, PIndex i => Some (VArray px (set_index i v items))
  | _, _ => None
  end.

(** The [set] trap of [handler]: the updated target and the trap's result. *)
Definition handler_set (target : value) (p : property) (v : value)
  : option (value * bool) :=
  let newValue :=
    if isProxiable v && negb (isBlobLike v)
    then createDeepProxy v
    else v in
  match Reflect_set target p newValue with
  | Some target' => Some (target', true)
  | None => None
  end.

(** ** Schemas *)

(** The schema constructors of the validator that the source calls:
    [z.string()], [z.number()], [z.boolean()], [z.null()], [z.undefined()],
    [z.unknown()], [z.instanceof(Blob)], [z.array(s)], [z.union([...])] and
    [z.object(shape)]. *)
Unset Elimination Schemes.
Inductive Schema :=
| ZString
| ZNumber
| ZBoolean
| ZNull
| ZUndefined
| ZUnknown
| ZInstanceofBlob
| ZArray (element : Schema)
| ZUnion (options : list Schema)
| ZObject (shape : list (string * Schema)).
Set Elimination Schemes.

Section SchemaInduction.
Variable P : Schema -> Prop.
Hypothesis Hstring : P ZString.
Hypothesis Hnumber : P ZNumber.
Hypothesis Hboolean : P ZBoolean.
Hypothesis Hnull : P ZNull.
Hypothesis Hundefined : P ZUndefined.
Hypothesis Hunknown : P ZUnknown.
Hypothesis Hblob : P ZInstanceofBlob.
Hypothesis Harray : forall element, P element -> P (ZArray element).
Hypothesis Hunion : forall options, Forall P options -> P (ZUnion options).
Hypothesis Hobject : forall shape,
    Forall (fun entry => P (snd entry)) shape -> P (ZObject shape).

Fixpoint Schema_nested_ind (s : Schema) : P s :=
  match s with
  | ZString => Hstring
  | ZNumber => Hnumber
  | ZBoolean => Hboolean
  | ZNull => Hnull
  | ZUndefined => Hundefined
  | ZUnknown => Hunknown
  | ZInstanceofBlob => Hblob
  | ZArray element => Harray element (Schema_nested_ind element)
  | ZUnion options =>
      Hunion options
        ((fix opts (xs : list Schema) :=
            match xs return Forall _ xs with
            | [] => Forall_nil _
            | x :: rest => Forall_cons x (Schema_nested_ind x) (opts rest)
            end) options)
  | ZObject shape =>
      Hobject shape
        ((fix entries (xs : list (string * Schema)) :=
            match xs return Forall _ xs with
            | [] => Forall_nil _
            | e :: rest => Forall_cons e (Schema_nested_ind (snd e)) (entries rest)
            end) shape)
  end.
End SchemaInduction.

(** ** Schema inference *)

(** [for (const item of data)] reads a hole as [undefined], which the
    chain of tests sends to [z.undefined()]. *)
Fixpoint inferSchema (data : value) : Schema :=
  if Array_isArray data then
    match data with
    | VArray _ items =>
        let elementTypes :=
          map (fun slot =>
                 match slot with
                 | None => ZUndefined
                 | Some item =>
                     if isProxiable item && negb (isBlobLike item) then inferSchema item
                     else if isBlobLike item then ZInstanceofBlob
                     else if typeof item =? "string" then ZString
                     else if typeof item =? "number" then ZNumber
                     else if typeof item =? "boolean" then ZBoolean
                     else if is_null item then ZNull
                     else if is_undefined item then ZUndefined
                     else ZUnknown
                 end) items in
        ZArray (if (0 <? List.length elementTypes)%nat then ZUnion elementTypes else ZUnknown)
    | _ => ZUnknown
    end
  else if isProxiable data && negb (isBlobLike data) then
    match data with
    | VObject _ _ fields =>
        let shape :=
          map (fun kv =>
                 let v := snd kv in
                 (fst kv,
                  if isProxiable v && negb (isBlobLike v) then inferSchema v
                  else if isBlobLike v then ZInstanceofBlob
                  else if typeof v =? "string" then ZString
                  else if typeof v =? "number" then ZNumber
                  else if typeof v =? "boolean" then ZBoolean
                  else if is_null v then ZNull
                  else if is_undefined v then ZUndefined
                  else ZUnknown)) fields in
        ZObject shape
    | _ => ZUnknown
    end
  else if isBlobLike data then ZInstanceofBlob
  else ZUnknown.

(** ** The validator *)

Fixpoint lookup (k : string) (fields : list (string * value)) : option value :=
  match fields with
  | [] => None
  | (k', v) :: rest => if k' =? k then Some v else lookup k rest
  end.

(** [key in data], for own properties. *)
Definition has_own (k : string) (fields : list (string * value)) : bool :=
  match lookup k fields with
  | Some _ => true
  | None => false
  end.

Definition read_slot (slot : option value) : value :=
  match slot with
  | Some v => v
  | None => undefined
  end.

(** What the validator classifies as an object, with the properties it
    reads from it: a plain object, and a blob, which has no own property (it
    classifies arrays, [null] and dates apart).  Inherited properties
    ([toString], the [size] of a blob, ...) are not modelled. *)
Definition parsed_object (data : value) : option (list (string * value)) :=
  match data with
  | VObject _ ClsObject fields => Some fields
  | VBlob _ _ => Some []
  | _ => None
  end.

(** [schema.parse(data)], after the validator's behaviour (zod is a
    dependency of the repository, not part of it): [None] stands for a thrown
    [ZodError].  A primitive schema accepts the values of its kind and returns
    them; [z.number()] rejects [NaN]; [z.unknown()] and [z.instanceof(Blob)]
    return their input; [z.array] parses every element (a hole reads as
    [undefined]) into a new array; [z.union] returns the result of the first
    option that accepts; [z.object] parses the properties named in its shape
    into a new object and strips the others (a property missing from the
    input is kept out of the result when it parses to [undefined]). *)
Fixpoint parse (schema : Schema) (data : value) : option value :=
  match schema with
  | ZString =>
      match data with VScalar (SString _) => Some data | _ => None end
  | ZNumber =>
      match data with VScalar (SNumber (Num _)) => Some data | _ => None end
  | ZBoolean =>
      match data with VScalar (SBoolean _) => Some data | _ => None end
  | ZNull =>
      match data with VScalar SNull => Some data | _ => None end
  | ZUndefined =>
      match data with VScalar SUndefined => Some data | _ => None end
  | ZUnknown => Some data
  | ZInstanceofBlob => if instanceof_Blob data then Some data else None
  | ZArray element =>
      match data with
      | VArray _ items =>
          option_map (VArray false)
            ((fix each (xs : list (option value)) : option (list (option value)) :=
                match xs with
                | [] => Some []
                | slot :: rest =>
                    match parse element (read_slot slot), each rest with
                    | Some v, Some vs => Some (Some v :: vs)
                    | _, _ => None
                    end
                end) items)
      | _ => None
      end
  | ZUnion options =>
      (fix first (opts : list Schema) : option value :=
         match opts with
         | [] => None
         | option :: rest =>
             match parse option data with
             | Some v => Some v
             | None => first rest
             end
         end) options
  | ZObject shape =>
      match parsed_object data with
      | Some fields =>
          option_map (VObject false ClsObject)
            ((fix each (entries : list (string * Schema)) : option (list (string * value)) :=
                match entries with
                | [] => Some []
                | (key, keyValidator) :: rest =>
                    match parse keyValidator (read_slot (lookup key fields)), each rest with
                    | Some v, Some pairs =>
                        Some (if negb (is_undefined v) || has_own key fields
                              then (key, v) :: pairs
                              else pairs)
                    | _, _ => None
                    end
                end) shape)
      | None => None
      end
  end.

(** ** FormData *)

Inductive FormDataEntryValue :=
| EString (s : string)
| EBlob (b : Blob).

(** A [FormData] is modelled by the calls to [append] made on it, in order:
    the key and the value passed in each (a key may be repeated).  What the
    host then holds for each call is given by [held] and [entries] below. *)
Definition FormData := list (string * FormDataEntryValue).

Definition append (formData : FormData) (key : string) (v : FormDataEntryValue)
  : FormData :=
  (formData ++ [(key, v)])%list.

(** The value the host's [FormData] holds for an appended value: a string;
    a [File], the very object that was passed; for a [Blob] that is not a
    [File], a new [File] named ["blob"] over the same bytes. *)
Inductive HeldValue :=
| HeldString (s : string)
| HeldFile (file : Blob)
| HeldNewFile (name : string) (bytes : string).

Definition held (v : FormDataEntryValue) : HeldValue :=
  match v with
  | EString s => HeldString s
  | EBlob b => if blob_is_file b then HeldFile b else HeldNewFile "blob" (blob_bytes b)
  end.

(** The entries of the host's [FormData], in order. *)
Definition entries (formData : FormData) : list (string * HeldValue) :=
  map (fun call => (fst call, held (snd call))) formData.

(** [forEach] skips the holes of an array and counts them in [index];
    [Object.entries] lists the fields in iteration order.  In the loops the
    last case of the inner [match] is never taken: arrays and objects are
    proxiable and not blobs. *)
Fixpoint appendToFormData (formData : FormData) (data : value) (parentKey : string)
  {struct data} : FormData :=
  match data with
  | VArray _ items =>
      (fix forEach (xs : list (option value)) (index : nat) (formData : FormData)
         {struct xs} : FormData :=
         match xs with
         | [] => formData
         | None :: rest => forEach rest (S index) formData
         | Some v :: rest =>
             let key :=
               if truthy parentKey
               then parentKey ++ "[" ++ string_of_nat index ++ "]"
               else string_of_nat index in
             forEach rest (S index)
               (if isProxiable v && negb (isBlobLike v)
                then appendToFormData formData v key
                else match v with
                     | VBlob _ b => append formData key (EBlob b)
                     | VScalar s => append formData key (EString (String_ s))
                     | _ => formData
                     end)
         end) items 0 formData
  | VObject _ _ fields =>
      (fix entries (xs : list (string * value)) (formData : FormData)
         {struct xs} : FormData :=
         match xs with
         | [] => formData
         | (key, v) :: rest =>
             let newKey :=
               if truthy parentKey
               then parentKey ++ "[" ++ key ++ "]"
               else key in
             entries rest
               (if isProxiable v && negb (isBlobLike v)
                then appendToFormData formData v newKey
                else match v with
                     | VBlob _ b => append formData newKey (EBlob b)
                     | VScalar s => append formData newKey (EString (String_ s))
                     | _ => formData
                     end)
         end) fields formData
  | VBlob _ b =>
      if truthy parentKey then append formData parentKey (EBlob b) else formData
  | VScalar s =>
      if truthy parentKey then append formData parentKey (EString (String_ s))
      else formData
  end.

(** ** Structured clone *)

(** A computation that allocates object identities from a counter and may
    throw. *)
Definition Alloc (A : Type) : Type := nat -> option (A * nat).

Definition ret {A} (a : A) : Alloc A := fun n => Some (a, n).

Definition bind {A B} (m : Alloc A) (k : A -> Alloc B) : Alloc B :=
  fun n =>
    match m n with
    | Some (a, n') => k a n'
    | None => None
    end.

Definition throw {A} : Alloc A := fun _ => None.

Definition fresh : Alloc nat := fun n => Some (n, S n).

Notation "x <- m ;; k" := (bind m (fun x => k))
  (at level 61, m at next level, right associativity).

(** [structuredClone(v)]: a primitive is returned as it is; a symbol, a
    function and a proxy cannot be cloned ([DataCloneError]); a [Blob] or
    [File] is cloned into a new object over the same bytes; a [Date] into a
    [Date] of the same time; an array or a plain object is rebuilt from the
    clones of its properties, holes kept. *)
Fixpoint structuredClone (v : value) : Alloc value :=
  match v with
  | VScalar (SSymbol _) => throw
  | VScalar (SFunction _) => throw
  | VScalar s => ret (VScalar s)
  | VBlob true _ => throw
  | VBlob false b =>
      id <- fresh ;;
      ret (VBlob false (mkBlob id (blob_is_file b) (blob_bytes b)))
  | VArray true _ => throw
  | VArray false items =>
      items' <- (fix each (xs : list (option value)) : Alloc (list (option value)) :=
                   match xs with
                   | [] => ret []
                   | None :: rest =>
                       rest' <- each rest ;; ret (None :: rest')
                   | Some x :: rest =>
                       x' <- structuredClone x ;;
                       rest' <- each rest ;;
                       ret (Some x' :: rest')
                   end) items ;;
      ret (VArray false items')
  | VObject true _ _ => throw
  | VObject false (ClsDate time) _ => ret (VObject false (ClsDate time) [])
  | VObject false ClsObject fields =>
      fields' <- (fix each (xs : list (string * value)) : Alloc (list (string * value)) :=
                    match xs with
                    | [] => ret []
                    | (k, x) :: rest =>
                        x' <- structuredClone x ;;
                        rest' <- each rest ;;
                        ret ((k, x') :: rest')
                    end) fields ;;
      ret (VObject false ClsObject fields')
  end.

(** ** Main API *)

Inductive Thrown :=
| RootTypeError (message : string)
| ZodError
| DataCloneError
| TypeError.

Inductive outcome (A : Type) :=
| Return (a : A)
| Throw (e : Thrown).
Arguments Return {A} a.
Arguments Throw {A} e.

(** [frmz(initialData, schema?)].  [nextId] is the host's allocation counter
    when the call starts; the result is the returned [data] and the counter
    after the call.  The returned [getFormData] closes over [data] and is
    [getFormData] below, applied to the state of [data] at the time of the
    call. *)
Definition frmz (nextId : nat) (initialData : value) (schema : option Schema)
  : outcome (value * nat) :=
  if negb (isProxiable initialData) then
    Throw (RootTypeError "createFormDataManager only supports object and array root types")
  else
    let actualSchema :=
      match schema with
      | Some s => s
      | None => inferSchema initialData
      end in
    match parse actualSchema initialData with
    | None => Throw ZodError
    | Some parsed =>
        match structuredClone parsed nextId with
        | None => Throw DataCloneError
        | Some (copy, nextId') =>
            if isProxiable copy
            then Return (createDeepProxy copy, nextId')
            else Throw TypeError
        end
    end.

Definition getFormData (data : value) : FormData :=
  appendToFormData [] data "".

(** ** Reads and writes through the handle *)

(** [node[p]] for a field of an object or an element of an array; [None]
    when there is none.  The named properties of an array, [length]
    included, are not read here: [array_length] gives the length. *)
Definition js_get (node : value) (p : property) : option value :=
  match node, p with
  | VObject _ _ fields, _ => lookup (property_key p) fields
  | VArray _ items, PIndex i => nth i items None
  | _, _ => None
  end.

Definition is_proxy (v : value) : bool :=
  match v with
  | VScalar _ => false
  | VBlob px _ | VArray px _ | VObject px _ _ => px
  end.

(** The assignment [node.q1...qn.p = v].  The objects on the way are read
    with [js_get]; the write to the last one goes through the [set] trap when
    that object is a proxy and is an ordinary write otherwise.  The update of
    an object in place is the replacement of the node in the tree. *)
Fixpoint assign (path : list property) (p : property) (v : value) (node : value)
  : option value :=
  match path with
  | [] =>
      if is_proxy node
      then option_map fst (handler_set node p v)
      else Reflect_set node p v
  | q :: rest =>
      match js_get node q with
      | Some child =>
          match assign rest p v child with
          | Some child' => Reflect_set node q child'
          | None => None
          end
      | None => None
      end
  end.

Definition write : Type := list property * property * value.

(** A sequence of assignments through the handle, oldest first. *)
Fixpoint assign_all (ws : list write) (data : value) : option value :=
  match ws with
  | [] => Some data
  | (path, p, v) :: rest =>
      match assign path p v data with
      | Some data' => assign_all rest data'
      | None => None
      end
  end.

(** ** Vocabulary of the specification *)

(** A container: what the source tests with
    [isProxiable(x) && !isBlobLike(x)]. *)
Definition is_container (v : value) : bool :=
  isProxiable v && negb (isBlobLike v).

(** The per-member chain of tests of [inferSchema], as one function of the
    member. *)
Definition memberSchema (v : value) : Schema :=
  if isProxiable v && negb (isBlobLike v) then inferSchema v
  else if isBlobLike v then ZInstanceofBlob
  else if typeof v =? "string" then ZString
  else if typeof v =? "number" then ZNumber
  else if typeof v =? "boolean" then ZBoolean
  else if is_null v then ZNull
  else if is_undefined v then ZUndefined
  else ZUnknown.

(** The schema of a member by its kind: the exact-kind schema of a
    primitive, the binary schema of a blob, the inferred schema of an array
    or object, accept-anything for a symbol or a function. *)
Definition kind_schema (v : value) : Schema :=
  match v with
  | VScalar (SString _) => ZString
  | VScalar (SNumber _) => ZNumber
  | VScalar (SBoolean _) => ZBoolean
  | VScalar SNull => ZNull
  | VScalar SUndefined => ZUndefined
  | VScalar (SSymbol _) | VScalar (SFunction _) => ZUnknown
  | VBlob _ _ => ZInstanceofBlob
  | VArray _ _ | VObject _ _ _ => inferSchema v
  end.

(** The kinds of the specification's data model. *)
Definition is_record (v : value) : bool :=
  match v with VObject _ ClsObject _ => true | _ => false end.

Definition is_sequence (v : value) : bool :=
  match v with VArray _ _ => true | _ => false end.

Definition is_binary (v : value) : bool :=
  match v with VBlob _ _ => true | _ => false end.

Definition is_primitive (v : value) : bool :=
  match v with
  | VScalar (SString _) | VScalar (SNumber _) | VScalar (SBoolean _)
  | VScalar SNull | VScalar SUndefined => true
  | _ => false
  end.

(** Neither a Record, a Sequence, a BinaryPayload nor a primitive. *)
Definition is_other (v : value) : bool :=
  negb (is_record v || is_sequence v || is_binary v || is_primitive v).

(** *** Bracket notation *)

Inductive segment :=
| SegField (k : string)
| SegIndex (i : nat).

Definition segment_text (s : segment) : string :=
  match s with
  | SegField k => k
  | SegIndex i => string_of_nat i
  end.

(** The key of a member under prefix [p]: [p ? "p[s]" : "s"]. *)
Definition child_key (p : string) (s : segment) : string :=
  if truthy p then p ++ "[" ++ segment_text s ++ "]" else segment_text s.

(** The key of a path from the root, the prefix of the root being empty. *)
Definition bracket_key (path : list segment) : string :=
  fold_left child_key path "".

Definition under (s : segment) (leaf : list segment * FormDataEntryValue)
  : list segment * FormDataEntryValue :=
  (s :: fst leaf, snd leaf).

(** The leaves of a tree with their paths: Record fields in iteration
    order, Sequence elements in index order; a blob is a leaf carrying the
    blob itself, any other leaf carries its text. *)
Fixpoint leaves (data : value) : list (list segment * FormDataEntryValue) :=
  match data with
  | VScalar s => [([], EString (String_ s))]
  | VBlob _ b => [([], EBlob b)]
  | VArray _ items =>
      (fix elements (xs : list (option value)) (i : nat) :=
         match xs with
         | [] => []
         | None :: rest => elements rest (S i)
         | Some v :: rest =>
             (map (under (SegIndex i)) (leaves v) ++ elements rest (S i))%list
         end) items 0
  | VObject _ _ fields =>
      (fix members (xs : list (string * value)) :=
         match xs with
         | [] => []
         | (k, v) :: rest =>
             (map (under (SegField k)) (leaves v) ++ members rest)%list
         end) fields
  end.

Definition keyed (leaf : list segment * FormDataEntryValue)
  : string * FormDataEntryValue :=
  (bracket_key (fst leaf), snd leaf).

(** The key of a leaf whose path starts below prefix [p]. *)
Definition at_prefix (p : string) (leaf : list segment * FormDataEntryValue)
  : string * FormDataEntryValue :=
  (fold_left child_key (fst leaf) p, snd leaf).

Definition is_empty_container (v : value) : bool :=
  match v with
  | VArray _ [] | VObject _ _ [] => true
  | _ => false
  end.

(** *** Blob references *)

(** The blobs reachable from a value, in traversal order. *)
Fixpoint blobs (v : value) : list Blob :=
  match v with
  | VScalar _ => []
  | VBlob _ b => [b]
  | VArray _ items =>
      flat_map (fun slot => match slot with Some x => blobs x | None => [] end) items
  | VObject _ _ fields =>
      flat_map (fun kv => blobs (snd kv)) fields
  end.

Definition entry_blobs {K : Type} (entry : K * FormDataEntryValue) : list Blob :=
  match snd entry with
  | EBlob b => [b]
  | EString _ => []
  end.

(** The blobs a [FormData] holds, in order. *)
Definition formdata_blobs (formData : FormData) : list Blob :=
  flat_map entry_blobs formData.






(** *** Wrapping *)

(** Every array and object of the tree is a proxy. *)
Fixpoint all_proxied (v : value) : bool :=
  match v with
  | VScalar _ => true
  | VBlob _ _ => true
  | VArray px items =>
      px && forallb (fun slot => match slot with Some x => all_proxied x | None => true end) items
  | VObject px _ fields =>
      px && forallb (fun kv => all_proxied (snd kv)) fields
  end.

(** The value with every proxy taken away: the targets, all the way down. *)
Fixpoint unproxied (v : value) : value :=
  match v with
  | VScalar s => VScalar s
  | VBlob _ b => VBlob false b
  | VArray _ items =>
      VArray false
        (map (fun slot => match slot with Some x => Some (unproxied x) | None => None end)
             items)
  | VObject _ cls fields =>
      VObject false cls (map (fun kv => (fst kv, unproxied (snd kv))) fields)
  end.

(** The [length] of an array. *)
Definition array_length (v : value) : option nat :=
  match v with
  | VArray _ items => Some (List.length items)
  | _ => None
  end.

(** A write the model covers: to a field of an object, or to an index of an
    array. *)
Definition writable (target : value) (p : property) : bool :=
  match target, p with
  | VObject _ _ _, _ => true
  | VArray _ _, PIndex _ => true
  | _, _ => false
  end.

(** The object [node.q1...qn]. *)
Fixpoint resolve (path : list property) (node : value) : option value :=
  match path with
  | [] => Some node
  | q :: rest =>
      match js_get node q with
      | Some child => resolve rest child
      | None => None
      end
  end.

(** *** The domain of the inference round trip *)

Fixpoint distinct (ks : list string) : bool :=
  match ks with
  | [] => true
  | k :: rest => negb (existsb (String.eqb k) rest) && distinct rest
  end.

(** Values composed only of primitives, Records, Sequences and blobs, as the
    caller writes them: no proxy, no hole, distinct field names. *)
Fixpoint composed (v : value) : bool :=
  match v with
  | VScalar s => is_primitive (VScalar s)
  | VBlob px _ => negb px
  | VArray px items =>
      negb px
      && forallb (fun slot => match slot with Some x => composed x | None => false end) items
  | VObject px cls fields =>
      negb px
      && match cls with ClsObject => true | ClsDate _ => false end
      && distinct (map fst fields)
      && forallb (fun kv => composed (snd kv)) fields
  end.

Fixpoint nan_free (v : value) : bool :=
  match v with
  | VScalar (SNumber NaN) => false
  | VScalar _ => true
  | VBlob _ _ => true
  | VArray _ items =>
      forallb (fun slot => match slot with Some x => nan_free x | None => true end) items
  | VObject _ _ fields => forallb (fun kv => nan_free (snd kv)) fields
  end.

(** No Record in the value, at any depth. *)
Fixpoint record_free (v : value) : bool :=
  match v with
  | VScalar _ => true
  | VBlob _ _ => true
  | VArray _ items =>
      forallb (fun slot => match slot with Some x => record_free x | None => true end) items
  | VObject _ _ _ => false
  end.

Fixpoint Schema_eqb (a b : Schema) {struct a} : bool :=
  match a, b with
  | ZString, ZString | ZNumber, ZNumber | ZBoolean, ZBoolean | ZNull, ZNull
  | ZUndefined, ZUndefined | ZUnknown, ZUnknown
  | ZInstanceofBlob, ZInstanceofBlob => true
  | ZArray x, ZArray y => Schema_eqb x y
  | ZUnion xs, ZUnion ys =>
      (fix all2 (xs ys : list Schema) {struct xs} : bool :=
         match xs, ys with
         | [], [] => true
         | x :: xs', y :: ys' => Schema_eqb x y && all2 xs' ys'
         | _, _ => false
         end) xs ys
  | ZObject xs, ZObject ys =>
      (fix all2 (xs ys : list (string * Schema)) {struct xs} : bool :=
         match xs, ys with
         | [], [] => true
         | (k, x) :: xs', (l, y) :: ys' => (k =? l) && Schema_eqb x y && all2 xs' ys'
         | _, _ => false
         end) xs ys
  | _, _ => false
  end.

(** Every Sequence of the value either holds no Record, at any depth, or
    holds elements that all have the same schema (and are uniform in turn). *)
Fixpoint uniform (v : value) : bool :=
  match v with
  | VScalar _ => true
  | VBlob _ _ => true
  | VArray _ items =>
      forallb (fun slot => match slot with Some x => record_free x | None => true end) items
      || (forallb (fun slot => match slot with Some x => uniform x | None => true end) items
          && forallb (fun slot =>
                        Schema_eqb (kind_schema (read_slot slot))
                                   (kind_schema (read_slot (hd None items)))) items)
  | VObject _ _ fields => forallb (fun kv => uniform (snd kv)) fields
  end.

(** A schema without [z.object]. *)
Fixpoint object_free (s : Schema) : bool :=
  match s with
  | ZArray element => object_free element
  | ZUnion options => forallb object_free options
  | ZObject _ => false
  | _ => true
  end.

(** *** Sample values *)

Definition num (z : Z) : value := VScalar (SNumber (Num z)).
Definition str (s : string) : value := VScalar (SString s).
Definition obj (fields : list (string * value)) : value := VObject false ClsObject fields.
Definition arr (items : list value) : value := VArray false (map Some items).
Definition date (time : Z) : value := VObject false (ClsDate time) [].
Definition blob0 : Blob := mkBlob 0 false "bytes".

Definition bob : value :=
  obj [("user", obj [("name", str "Bob")]); ("tags", arr [str "a"; str "b"])].

Definition order : value :=
  obj [("customer", str "Ann");
       ("rows", arr [obj [("item", str "pen"); ("qty", num 2)];
                     obj [("item", str "ink"); ("qty", num 1)]]);
       ("notes", arr [str "gift"; num 7; VBlob false blob0])].

(** *** Keys of assignments *)

(** The key under which [node.q1...qn] is rendered: each property
    contributes its key, whether it names a field or an index. *)
Definition property_segment (p : property) : segment :=
  SegField (property_key p).

Definition path_key (path : list property) : string :=
  bracket_key (map property_segment path).

(** What the source stores for an assigned value. *)
Definition stored (x : value) : value :=
  if isProxiable x && negb (isBlobLike x) then createDeepProxy x else x.

(** *** Entries up to the identity of blobs *)

(** The content of an entry: its text, or the kind and bytes of its blob. *)
Definition entry_content (e : FormDataEntryValue) : string + bool * string :=
  match e with
  | EString s => inl s
  | EBlob b => inr (blob_is_file b, blob_bytes b)
  end.

Definition contents {K : Type} (entries : list (K * FormDataEntryValue))
  : list (K * (string + bool * string)) :=
  map (fun entry => (fst entry, entry_content (snd entry))) entries.

Definition is_function_or_symbol (x : value) : bool :=
  match x with
  | VScalar (SSymbol _) | VScalar (SFunction _) => true
  | _ => false
  end.

(** *** The loops of the source, named

    Each loop of the functions above, as a function of its own; the
    unfolding lemmas below state that the functions run these loops. *)

Definition appendMember (formData : FormData) (v : value) (key : string) : FormData :=
  if isProxiable v && negb (isBlobLike v)
  then appendToFormData formData v key
  else match v with
       | VBlob _ b => append formData key (EBlob b)
       | VScalar s => append formData key (EString (String_ s))
       | _ => formData
       end.

Fixpoint forEach (parentKey : string) (xs : list (option value)) (index : nat)
  (formData : FormData) : FormData :=
  match xs with
  | [] => formData
  | None :: rest => forEach parentKey rest (S index) formData
  | Some v :: rest =>
      forEach parentKey rest (S index)
        (appendMember formData v (child_key parentKey (SegIndex index)))
  end.

Fixpoint forEntries (parentKey : string) (xs : list (string * value))
  (formData : FormData) : FormData :=
  match xs with
  | [] => formData
  | (key, v) :: rest =>
      forEntries parentKey rest
        (appendMember formData v (child_key parentKey (SegField key)))
  end.

Fixpoint leavesElements (xs : list (option value)) (i : nat)
  : list (list segment * FormDataEntryValue) :=
  match xs with
  | [] => []
  | None :: rest => leavesElements rest (S i)
  | Some v :: rest =>
      (map (under (SegIndex i)) (leaves v) ++ leavesElements rest (S i))%list
  end.

Fixpoint leavesMembers (xs : list (string * value))
  : list (list segment * FormDataEntryValue) :=
  match xs with
  | [] => []
  | (k, v) :: rest => (map (under (SegField k)) (leaves v) ++ leavesMembers rest)%list
  end.

Fixpoint parseElements (element : Schema) (xs : list (option value))
  : option (list (option value)) :=
  match xs with
  | [] => Some []
  | slot :: rest =>
      match parse element (read_slot slot), parseElements element rest with
      | Some v, Some vs => Some (Some v :: vs)
      | _, _ => None
      end
  end.

Fixpoint parseUnion (opts : list Schema) (data : value) : option value :=
  match opts with
  | [] => None
  | option :: rest =>
      match parse option data with
      | Some v => Some v
      | None => parseUnion rest data
      end
  end.

Fixpoint parseShape (fields : list (string * value)) (entries : list (string * Schema))
  : option (list (string * value)) :=
  match entries with
  | [] => Some []
  | (key, keyValidator) :: rest =>
      match parse keyValidator (read_slot (lookup key fields)), parseShape fields rest with
      | Some v, Some pairs =>
          Some (if negb (is_undefined v) || has_own key fields
                then (key, v) :: pairs
                else pairs)
      | _, _ => None
      end
  end.

Fixpoint cloneItems (xs : list (option value)) : Alloc (list (option value)) :=
  match xs with
  | [] => ret []
  | None :: rest => rest' <- cloneItems rest ;; ret (None :: rest')
  | Some x :: rest =>
      x' <- structuredClone x ;;
      rest' <- cloneItems rest ;;
      ret (Some x' :: rest')
  end.

Fixpoint cloneFields (xs : list (string * value)) : Alloc (list (string * value)) :=
  match xs with
  | [] => ret []
  | (k, x) :: rest =>
      x' <- structuredClone x ;;
      rest' <- cloneFields rest ;;
      ret ((k, x') :: rest')
  end.

(** ** The heap: objects shared with the caller

    The tree model above gives each object one place.  In the host an
    object is a cell of the heap and a value holds a reference to it, so the
    caller and the handle can hold the same object.  This module models that
    for [createDeepProxy] and the [set] trap, which work in place: the
    target's properties are overwritten and the proxy refers to the target.
    The functions take fuel, a bound on the depth of the calls. *)
Module Heap.

Definition loc := nat.

(** What a variable or a property holds: a primitive, or a reference. *)
Inductive jsval :=
| Prim (s : scalar)
| Ref (l : loc).

(** An object of the heap: an ordinary object or array with its own
    enumerable properties, a blob, or a proxy with [handler] on a target. *)
Inductive object :=
| Ordinary (is_array : bool) (props : list (string * jsval))
| BlobObject (b : Blob)
| ProxyObject (target : loc).

Definition heap := list object.

(** A new object, at the next free location. *)
Definition alloc (h : heap) (o : object) : heap * loc :=
  ((h ++ [o])%list, List.length h).

Fixpoint store (h : heap) (l : loc) (o : object) : heap :=
  match h, l with
  | [], _ => []
  | _ :: rest, O => o :: rest
  | x :: rest, S l' => x :: store rest l' o
  end.

Fixpoint set_prop (k : string) (v : jsval) (props : list (string * jsval))
  : list (string * jsval) :=
  match props with
  | [] => [(k, v)]
  | (k', v') :: rest =>
      if k' =? k then (k, v) :: rest else (k', v') :: set_prop k v rest
  end.

Fixpoint get_prop (k : string) (props : list (string * jsval)) : jsval :=
  match props with
  | [] => Prim SUndefined
  | (k', v) :: rest => if k' =? k then v else get_prop k rest
  end.

Definition typeof (v : jsval) : string :=
  match v with
  | Ref _ => "object"
  | Prim s => typeof (VScalar s)
  end.

Definition is_null (v : jsval) : bool :=
  match v with
  | Prim SNull => true
  | _ => false
  end.

Definition isProxiable (v : jsval) : bool :=
  (typeof v =? "object") && negb (is_null v).

(** [instanceof] reads the prototype through a proxy. *)
Fixpoint instanceof_Blob (fuel : nat) (h : heap) (l : loc) : bool :=
  match fuel with
  | O => false
  | S fuel' =>
      match nth_error h l with
      | Some (BlobObject _) => true
      | Some (ProxyObject target) => instanceof_Blob fuel' h target
      | _ => false
      end
  end.

Definition isBlobLike (fuel : nat) (h : heap) (v : jsval) : bool :=
  match v with
  | Ref l => instanceof_Blob fuel h l
  | Prim _ => false
  end.

(** [Object.keys(o)] and [o[k]]; the handler has no trap for them, so a
    proxy answers for its target. *)
Fixpoint Object_keys (fuel : nat) (h : heap) (l : loc) : list string :=
  match fuel with
  | O => []
  | S fuel' =>
      match nth_error h l with
      | Some (Ordinary _ props) => map fst props
      | Some (ProxyObject target) => Object_keys fuel' h target
      | _ => []
      end
  end.

Fixpoint get (fuel : nat) (h : heap) (l : loc) (k : string) : jsval :=
  match fuel with
  | O => Prim SUndefined
  | S fuel' =>
      match nth_error h l with
      | Some (Ordinary _ props) => get_prop k props
      | Some (ProxyObject target) => get fuel' h target k
      | _ => Prim SUndefined
      end
  end.

(** [createDeepProxy(target, handler)] and the assignment [o[k] = v].  An
    assignment to an ordinary object overwrites the property; an assignment
    to a proxy runs the [set] trap of [handler] on its target: wrap the
    value if it is proxiable and not a blob, then [Reflect.set] on the
    target.  [None]: out of fuel, or a write the model does not cover. *)
Fixpoint createDeepProxy (fuel : nat) (h : heap) (target : loc) {struct fuel}
  : option (heap * loc) :=
  match fuel with
  | O => None
  | S fuel' =>
      match
        (fix each (keys : list string) (h : heap) {struct keys} : option heap :=
           match keys with
           | [] => Some h
           | key :: rest =>
               let value := get fuel' h target key in
               if isProxiable value && negb (isBlobLike fuel' h value) then
                 match value with
                 | Ref l =>
                     match createDeepProxy fuel' h l with
                     | Some (h1, proxy) =>
                         match set fuel' h1 target key (Ref proxy) with
                         | Some h2 => each rest h2
                         | None => None
                         end
                     | None => None
                     end
                 | Prim _ => each rest h
                 end
               else each rest h
           end) (Object_keys fuel' h target) h
      with
      | Some h' => Some (alloc h' (ProxyObject target))
      | None => None
      end
  end

with set (fuel : nat) (h : heap) (l : loc) (k : string) (v : jsval) {struct fuel}
  : option heap :=
  match fuel with
  | O => None
  | S fuel' =>
      match nth_error h l with
      | Some (Ordinary a props) => Some (store h l (Ordinary a (set_prop k v props)))
      | Some (ProxyObject target) =>
          let wrapped :=
            if isProxiable v && negb (isBlobLike fuel' h v) then
              match v with
              | Ref x =>
                  match createDeepProxy fuel' h x with
                  | Some (h1, proxy) => Some (h1, Ref proxy)
                  | None => None
                  end
              | Prim _ => Some (h, v)
              end
            else Some (h, v) in
          match wrapped with
          | Some (h1, newValue) => set fuel' h1 target k newValue
          | None => None
          end
      | _ => None
      end
  end.

Definition is_proxy (h : heap) (v : jsval) : bool :=
  match v with
  | Ref l =>
      match nth_error h l with
      | Some (ProxyObject _) => true
      | _ => false
      end
  | Prim _ => false
  end.

(** The caller's program
    [const { data } = frmz({}); const o = {}; data.x = o; o.b = {};]
    from the point where [frmz] wraps its working copy [{}]: the heap at the
    end, with the locations of [data], of [o] and of the object put into
    [o]. *)
Definition scenario : option (heap * loc * loc * loc) :=
  let fuel := 8 in
  let '(h, copy) := alloc [] (Ordinary false []) in
  match createDeepProxy fuel h copy with
  | Some (h, data) =>
      let '(h, o) := alloc h (Ordinary false []) in
      match set fuel h data "x" (Ref o) with
      | Some h =>
          let '(h, inner) := alloc h (Ordinary false []) in
          match set fuel h o "b" (Ref inner) with
          | Some h => Some (h, data, o, inner)
          | None => None
          end
      | None => None
      end
  | None => None
  end.

End Heap.

(** * Properties *)

(** ** Unfolding lemmas *)

Lemma appendToFormData_array formData px items parentKey :
  appendToFormData formData (VArray px items) parentKey
  = forEach parentKey items 0 formData.
Proof.
  simpl. generalize 0 formData.
  induction items as [|[v|] rest IH]; intros i fd; simpl; auto.
Qed.

Lemma appendToFormData_object formData px cls fields parentKey :
  appendToFormData formData (VObject px cls fields) parentKey
  = forEntries parentKey fields formData.
Proof.
  simpl. generalize formData.
  induction fields as [|[k v] rest IH]; intros fd; simpl; auto.
Qed.

Lemma leaves_array px items : leaves (VArray px items) = leavesElements items 0.
Proof.
  simpl. generalize 0.
  induction items as [|[v|] rest IH]; intros i; simpl; rewrite ?IH; auto.
Qed.

Lemma leaves_object px cls fields :
  leaves (VObject px cls fields) = leavesMembers fields.
Proof.
  simpl. induction fields as [|[k v] rest IH]; simpl; rewrite ?IH; auto.
Qed.

Lemma parse_array element data :
  parse (ZArray element) data
  = match data with
    | VArray _ items => option_map (VArray false) (parseElements element items)
    | _ => None
    end.
Proof.
  destruct data as [s|px b|px items|px cls fields]; simpl; auto.
  f_equal. induction items as [|slot rest IH]; simpl; rewrite ?IH; auto.
Qed.

Lemma parse_union options data :
  parse (ZUnion options) data = parseUnion options data.
Proof.
  simpl. induction options as [|o rest IH]; simpl; rewrite ?IH; auto.
Qed.

Lemma parse_object shape data :
  parse (ZObject shape) data
  = match parsed_object data with
    | Some fields => option_map (VObject false ClsObject) (parseShape fields shape)
    | None => None
    end.
Proof.
  simpl. destruct (parsed_object data) as [fields|]; auto.
  f_equal. induction shape as [|[k s] rest IH]; simpl; rewrite ?IH; auto.
Qed.

Lemma structuredClone_array items :
  structuredClone (VArray false items)
  = (items' <- cloneItems items ;; ret (VArray false items')).
Proof.
  reflexivity.
Qed.

Lemma structuredClone_object fields :
  structuredClone (VObject false ClsObject fields)
  = (fields' <- cloneFields fields ;; ret (VObject false ClsObject fields')).
Proof.
  reflexivity.
Qed.

(** ** Classification *)

Lemma is_container_cases v :
  is_container v = match v with VArray _ _ | VObject _ _ _ => true | _ => false end.
Proof.
  destruct v as [[]| | |]; reflexivity.
Qed.

Lemma memberSchema_kind v : memberSchema v = kind_schema v.
Proof.
  destruct v as [[]| | |]; reflexivity.
Qed.

(** ** Flattening *)

Lemma at_prefix_under p s leaf :
  at_prefix p (under s leaf) = at_prefix (child_key p s) leaf.
Proof.
  reflexivity.
Qed.

Lemma appendMember_leaves formData v parentKey s :
  (is_container v = true ->
   forall fd key, appendToFormData fd v key = (fd ++ map (at_prefix key) (leaves v))%list) ->
  appendMember formData v (child_key parentKey s)
  = (formData ++ map (at_prefix parentKey) (map (under s) (leaves v)))%list.
Proof.
  intros IH. rewrite map_map.
  rewrite (map_ext _ _ (at_prefix_under parentKey s)).
  unfold appendMember. fold (is_container v).
  destruct (is_container v) eqn:C.
  - now apply IH.
  - rewrite is_container_cases in C.
    destruct v as [sc|px b|px items|px cls fields]; try discriminate; reflexivity.
Qed.

Lemma forEach_leaves parentKey xs :
  Forall (fun slot =>
            match slot with
            | Some v =>
                is_container v = true ->
                forall fd key,
                  appendToFormData fd v key = (fd ++ map (at_prefix key) (leaves v))%list
            | None => True
            end) xs ->
  forall i formData,
    forEach parentKey xs i formData
    = (formData ++ map (at_prefix parentKey) (leavesElements xs i))%list.
Proof.
  induction 1 as [|[v|] rest Hv _ IH]; intros i fd; simpl.
  - now rewrite app_nil_r.
  - rewrite IH, (appendMember_leaves fd v parentKey (SegIndex i) Hv).
    now rewrite map_app, app_assoc.
  - apply IH.
Qed.

Lemma forEntries_leaves parentKey xs :
  Forall (fun kv =>
            is_container (snd kv) = true ->
            forall fd key,
              appendToFormData fd (snd kv) key
              = (fd ++ map (at_prefix key) (leaves (snd kv)))%list) xs ->
  forall formData,
    forEntries parentKey xs formData
    = (formData ++ map (at_prefix parentKey) (leavesMembers xs))%list.
Proof.
  induction 1 as [|[k v] rest Hv _ IH]; intros fd; simpl.
  - now rewrite app_nil_r.
  - rewrite IH, (appendMember_leaves fd v parentKey (SegField k) Hv).
    now rewrite map_app, app_assoc.
Qed.

(** Under any prefix, a container appends its leaves, each at the key its
    path spells from the prefix. *)
Lemma appendToFormData_leaves data :
  is_container data = true ->
  forall formData parentKey,
    appendToFormData formData data parentKey
    = (formData ++ map (at_prefix parentKey) (leaves data))%list.
Proof.
  induction data as [s|px b|px items IH|px cls fields IH] using value_nested_ind;
    intros C fd pk; rewrite is_container_cases in C; try discriminate.
  - rewrite appendToFormData_array, leaves_array. now apply forEach_leaves.
  - rewrite appendToFormData_object, leaves_object. now apply forEntries_leaves.
Qed.

Lemma leavesMembers_app xs ys :
  leavesMembers (xs ++ ys) = (leavesMembers xs ++ leavesMembers ys)%list.
Proof.
  induction xs as [|[k v] rest IH]; simpl; auto.
  now rewrite IH, app_assoc.
Qed.

Lemma leavesElements_app xs ys i :
  leavesElements (xs ++ ys) i
  = (leavesElements xs i ++ leavesElements ys (List.length xs + i))%list.
Proof.
  revert i. induction xs as [|[v|] rest IH]; intros i; simpl; auto.
  - rewrite IH, <- app_assoc. repeat f_equal. lia.
  - rewrite IH. repeat f_equal. lia.
Qed.

Lemma leaves_empty_container e : is_empty_container e = true -> leaves e = [].
Proof.
  destruct e as [s|px b|px [|x xs]|px cls [|f fs]]; simpl; auto; discriminate.
Qed.

Lemma getFormData_leaves data :
  is_container data = true -> getFormData data = map keyed (leaves data).
Proof.
  intros C. unfold getFormData.
  now rewrite (appendToFormData_leaves data C).
Qed.

(** C4: flattening a Record or Sequence yields exactly its leaves, Record
    fields in iteration order and Sequence elements in index order, each
    under the key that the grammar [p ? p[s] : s] spells along its path from
    the empty prefix: [k] for a root field, [i] for a root element,
    [parent[child]] below.  The sample object renders to [user[name]=Bob],
    [tags[0]=a], [tags[1]=b], directly and through [frmz]. *)
Theorem flatten_key_grammar :
  (forall data, is_container data = true ->
                getFormData data = map keyed (leaves data))
  /\ (forall k, bracket_key [SegField k] = k)
  /\ (forall i, bracket_key [SegIndex i] = string_of_nat i)
  /\ (forall path s,
         bracket_key (path ++ [s])
         = if truthy (bracket_key path)
           then bracket_key path ++ "[" ++ segment_text s ++ "]"
           else segment_text s)
  /\ getFormData bob
     = [("user[name]", EString "Bob"); ("tags[0]", EString "a"); ("tags[1]", EString "b")]
  /\ (exists data nextId,
         frmz 0 bob None = Return (data, nextId)
         /\ getFormData data
            = [("user[name]", EString "Bob"); ("tags[0]", EString "a");
               ("tags[1]", EString "b")]).
Proof.
  repeat split.
  - apply getFormData_leaves.
  - intros path s. unfold bracket_key. now rewrite fold_left_app.
  - eexists _, _. split; reflexivity.
Qed.

Lemma flatten_key_grammar_witness :
  is_container bob = true /\ getFormData bob = map keyed (leaves bob).
Proof.
  split; [reflexivity | apply (proj1 flatten_key_grammar); reflexivity].
Defined.

(** C10: an empty Record or Sequence adds no entry, under any key; a field
    holding one can be dropped, and an element holding one replaced by a
    hole, without changing the rendering; [{ a: {}, b: [] }] renders to the
    empty [FormData], as [{}] does. *)
Theorem empty_containers_omitted :
  (forall formData e key,
      is_empty_container e = true -> appendToFormData formData e key = formData)
  /\ (forall formData px cls before k e after parentKey,
         is_empty_container e = true ->
         appendToFormData formData (VObject px cls (before ++ (k, e) :: after)) parentKey
         = appendToFormData formData (VObject px cls (before ++ after)) parentKey)
  /\ (forall formData px before e after parentKey,
         is_empty_container e = true ->
         appendToFormData formData (VArray px (before ++ Some e :: after)) parentKey
         = appendToFormData formData (VArray px (before ++ None :: after)) parentKey)
  /\ getFormData (obj [("a", obj []); ("b", arr [])]) = []
  /\ getFormData (obj [("a", obj []); ("b", arr [])]) = getFormData (obj []).
Proof.
  repeat split.
  - intros fd e key E.
    destruct e as [s|px b|px [|x xs]|px cls [|f fs]]; try discriminate; reflexivity.
  - intros fd px cls before k e after pk E.
    rewrite !appendToFormData_leaves by reflexivity.
    rewrite !leaves_object, !leavesMembers_app. simpl.
    now rewrite (leaves_empty_container e E).
  - intros fd px before e after pk E.
    rewrite !appendToFormData_leaves by reflexivity.
    rewrite !leaves_array, !leavesElements_app. simpl.
    now rewrite (leaves_empty_container e E).
Qed.

Lemma empty_containers_omitted_witness :
  is_empty_container (obj []) = true
  /\ appendToFormData [] (obj [("a", num 1); ("e", obj []); ("z", num 2)]) ""
     = appendToFormData [] (obj [("a", num 1); ("z", num 2)]) "".
Proof.
  split; [reflexivity|].
  apply (proj1 (proj2 empty_containers_omitted)
           [] false ClsObject [("a", num 1)] "e" (obj []) [("z", num 2)] "").
  reflexivity.
Defined.

(** ** Schema inference *)

Lemma inferSchema_array px items :
  inferSchema (VArray px items)
  = ZArray (match items with
            | [] => ZUnknown
            | _ :: _ => ZUnion (map (fun slot => kind_schema (read_slot slot)) items)
            end).
Proof.
  cbn [inferSchema Array_isArray]. rewrite length_map.
  rewrite (map_ext _ (fun slot => kind_schema (read_slot slot))).
  - now destruct items.
  - intros [item|]; [apply memberSchema_kind | reflexivity].
Qed.

Lemma inferSchema_object px cls fields :
  inferSchema (VObject px cls fields)
  = ZObject (map (fun kv => (fst kv, kind_schema (snd kv))) fields).
Proof.
  cbn [inferSchema Array_isArray]. cbn. f_equal.
  apply map_ext. intros [k v]. cbn [fst snd]. f_equal. apply memberSchema_kind.
Qed.

(** C8: the element schema of a Sequence is the union of the schemas of its
    elements, one per element and in their order; accept-anything when the
    Sequence is empty. *)
Theorem infer_sequence_union px items :
  inferSchema (VArray px items)
  = ZArray (match items with
            | [] => ZUnknown
            | _ :: _ => ZUnion (map (fun slot => kind_schema (read_slot slot)) items)
            end)
  /\ inferSchema (VArray px []) = ZArray ZUnknown
  /\ inferSchema (arr [num 1; num 1]) = ZArray (ZUnion [ZNumber; ZNumber])
  /\ inferSchema (arr [str "a"; num 1; arr []; obj [("k", null)]])
     = ZArray (ZUnion [ZString; ZNumber; ZArray ZUnknown; ZObject [("k", ZNull)]]).
Proof.
  split; [apply inferSchema_array | repeat split].
Qed.

(** C3, as stated, fails on a [Date]: its schema is the empty object
    schema. *)
Lemma infer_date_is_object_schema :
  is_other (date 0) = true
  /\ inferSchema (date 0) = ZObject []
  /\ inferSchema (date 0) <> ZUnknown
  /\ inferSchema (obj [("when", date 0)]) = ZObject [("when", ZObject [])].
Proof.
  repeat split. discriminate.
Qed.

(** C3, amended: a value that is none of the kinds of the data model and
    whose [typeof] is not ["object"] (a function, a symbol) gets the
    accept-anything schema, at the root and as a member, and passes it; an
    object of any class is inferred field by field. *)
Theorem infer_other_non_object :
  (forall v,
      is_other v = true -> typeof v <> "object" ->
      inferSchema v = ZUnknown
      /\ memberSchema v = ZUnknown
      /\ parse (inferSchema v) v = Some v)
  /\ (forall px cls fields,
         inferSchema (VObject px cls fields)
         = ZObject (map (fun kv => (fst kv, kind_schema (snd kv))) fields)).
Proof.
  split.
  - intros v O T.
    destruct v as [[]|px b|px items|px cls fields];
      try discriminate; try (now elim T); repeat split.
  - apply inferSchema_object.
Qed.

Lemma infer_other_non_object_witness :
  inferSchema (VScalar (SFunction "() => 1")) = ZUnknown
  /\ memberSchema (VScalar (SFunction "() => 1")) = ZUnknown
  /\ parse (inferSchema (VScalar (SFunction "() => 1"))) (VScalar (SFunction "() => 1"))
     = Some (VScalar (SFunction "() => 1")).
Proof.
  apply (proj1 infer_other_non_object (VScalar (SFunction "() => 1")));
    [reflexivity | discriminate].
Defined.

(** ** Entry point *)

(** C2 holds for every value that is not an object, and fails for a bare
    blob: [frmz] returns a handle on a proxy of its clone, which renders to
    an empty [FormData]. *)
Theorem root_gate_admits_blob :
  (forall nextId s schema,
      frmz nextId (VScalar s) schema
      = Throw (RootTypeError "createFormDataManager only supports object and array root types"))
  /\ (forall nextId b,
         frmz nextId (VBlob false b) None
         = Return (VBlob true (mkBlob nextId (blob_is_file b) (blob_bytes b)), S nextId))
  /\ (forall b, getFormData (VBlob true b) = []).
Proof.
  repeat split. intros nextId s schema. now destruct s.
Qed.

(** ** Rendering the current state *)

Lemma set_field_In k v fields : In (k, v) (set_field k v fields).
Proof.
  induction fields as [|[k' v'] rest IH]; simpl; auto.
  destruct (k' =? k); simpl; auto.
Qed.

Lemma leavesMembers_In k v fields leaf :
  In (k, v) fields -> In leaf (leaves v) ->
  In (under (SegField k) leaf) (leavesMembers fields).
Proof.
  induction fields as [|[k' v'] rest IH]; simpl; [tauto|].
  intros [E|I] L; apply in_or_app.
  - inversion E; subst. left. now apply in_map.
  - right. now apply IH.
Qed.

(** C6: rendering reads the data at the time of the call: built from
    [{ n: 1 }] the handle renders to [n=1], and after [data.n = 2] to [n=2];
    a primitive written to a root field is rendered under that field. *)
Theorem render_reflects_writes :
  (exists data nextId data',
      frmz 0 (obj [("n", num 1)]) None = Return (data, nextId)
      /\ getFormData data = [("n", EString "1")]
      /\ assign [] (PName "n") (num 2) data = Some data'
      /\ getFormData data' = [("n", EString "2")]
      /\ getFormData data' <> getFormData data)
  /\ (forall cls fields k s,
         exists data',
           assign [] (PName k) (VScalar s) (VObject true cls fields) = Some data'
           /\ In (k, EString (String_ s)) (getFormData data')).
Proof.
  split.
  - eexists _, _, _. repeat split. discriminate.
  - intros cls fields k s.
    exists (VObject true cls (set_field k (VScalar s) fields)).
    split; [now destruct s|].
    rewrite getFormData_leaves by reflexivity.
    rewrite leaves_object.
    change (k, EString (String_ s))
      with (keyed (under (SegField k) ([], EString (String_ s)))).
    apply in_map, (leavesMembers_In k (VScalar s)); [apply set_field_In | now left].
Qed.

(** ** The wrapping invariant *)

Lemma not_container_all_proxied x : is_container x = false -> all_proxied x = true.
Proof.
  rewrite is_container_cases. destruct x; auto; discriminate.
Qed.

Lemma all_proxied_createDeepProxy v : all_proxied (createDeepProxy v) = true.
Proof.
  induction v as [s|px b|px items IH|px cls fields IH] using value_nested_ind;
    simpl; auto.
  - induction IH as [|[x|] rest Hx _ IHrest]; simpl; auto.
    apply andb_true_intro. split; auto.
    fold (is_container x). destruct (is_container x) eqn:C; auto.
    now apply not_container_all_proxied.
  - induction IH as [|[k x] rest Hx _ IHrest]; simpl in *; auto.
    apply andb_true_intro. split; auto.
    fold (is_container x). destruct (is_container x) eqn:C; auto.
    now apply not_container_all_proxied.
Qed.

Lemma all_proxied_wrapped x :
  all_proxied (if is_container x then createDeepProxy x else x) = true.
Proof.
  destruct (is_container x) eqn:C.
  - apply all_proxied_createDeepProxy.
  - now apply not_container_all_proxied.
Qed.

Lemma forallb_set_field (f : string * value -> bool) k v fields :
  forallb f fields = true -> f (k, v) = true ->
  forallb f (set_field k v fields) = true.
Proof.
  intros H Hv. induction fields as [|[k' v'] rest IH]; simpl in *.
  - now rewrite Hv.
  - apply andb_prop in H as [H1 H2].
    destruct (k' =? k); simpl; [now rewrite Hv | now rewrite H1, IH].
Qed.

Lemma forallb_set_index (f : option value -> bool) i v items :
  f None = true ->
  forallb f items = true -> f (Some v) = true ->
  forallb f (set_index i v items) = true.
Proof.
  intros Hn H Hv. revert items H.
  induction i as [|j IH]; intros [|x rest] H; simpl in *.
  - now rewrite Hv.
  - apply andb_prop in H as [_ H2]. now rewrite Hv.
  - now rewrite Hn, IH.
  - apply andb_prop in H as [H1 H2]. now rewrite H1, IH.
Qed.

Lemma all_proxied_Reflect_set target p v target' :
  all_proxied target = true -> all_proxied v = true ->
  Reflect_set target p v = Some target' ->
  all_proxied target' = true.
Proof.
  intros Ht Hv R.
  destruct target as [s|px b|px items|px cls fields]; try discriminate.
  - destruct p as [k|i]; try discriminate.
    inversion R; subst; clear R. simpl in *.
    apply andb_prop in Ht as [-> Ht]. simpl.
    now apply forallb_set_index.
  - inversion R; subst; clear R. simpl in *.
    apply andb_prop in Ht as [-> Ht]. simpl.
    now apply forallb_set_field.
Qed.

Lemma all_proxied_lookup k fields child :
  forallb (fun kv => all_proxied (snd kv)) fields = true ->
  lookup k fields = Some child -> all_proxied child = true.
Proof.
  induction fields as [|[k' v'] rest IH]; simpl; [discriminate|].
  intros H L. apply andb_prop in H as [H1 H2].
  destruct (k' =? k); [now inversion L; subst | now apply IH].
Qed.

Lemma all_proxied_nth i items child :
  forallb (fun slot => match slot with Some x => all_proxied x | None => true end) items
  = true ->
  nth i items None = Some child -> all_proxied child = true.
Proof.
  revert items. induction i as [|j IH]; intros [|x rest]; simpl; try discriminate.
  - intros H E. subst x. now apply andb_prop in H as [H _].
  - intros H E. apply andb_prop in H as [_ H]. now apply (IH rest).
Qed.

Lemma all_proxied_js_get node q child :
  all_proxied node = true -> js_get node q = Some child -> all_proxied child = true.
Proof.
  intros H G.
  destruct node as [s|px b|px items|px cls fields]; try discriminate; simpl in *;
    apply andb_prop in H as [_ H].
  - destruct q as [k|i]; try discriminate. now apply (all_proxied_nth i items).
  - now apply (all_proxied_lookup (property_key q) fields).
Qed.

Lemma all_proxied_handler_set target p x target' r :
  all_proxied target = true ->
  handler_set target p x = Some (target', r) ->
  all_proxied target' = true.
Proof.
  unfold handler_set. fold (is_container x). intros H S.
  destruct (Reflect_set target p _) as [t|] eqn:R; inversion S; subst.
  eapply all_proxied_Reflect_set; [exact H | apply (all_proxied_wrapped x) | exact R].
Qed.

Lemma all_proxied_assign path p x :
  forall node node',
    all_proxied node = true -> assign path p x node = Some node' ->
    all_proxied node' = true.
Proof.
  induction path as [|q rest IH]; intros node node' H A; simpl in A.
  - destruct (is_proxy node) eqn:Px.
    + destruct (handler_set node p x) as [[t r]|] eqn:S; inversion A; subst.
      eapply all_proxied_handler_set; eauto.
    + destruct node as [s|px b|px items|px cls fields]; simpl in *;
        try discriminate;
        subst px; discriminate.
  - destruct (js_get node q) as [child|] eqn:G; try discriminate.
    destruct (assign rest p x child) as [child'|] eqn:A'; try discriminate.
    apply (all_proxied_Reflect_set node q child' node' H); [|exact A].
    apply (IH child child'); [|exact A'].
    now apply (all_proxied_js_get node q).
Qed.

Lemma all_proxied_assign_all ws :
  forall data data',
    all_proxied data = true -> assign_all ws data = Some data' ->
    all_proxied data' = true.
Proof.
  induction ws as [|[[path p] x] rest IH]; intros data data' H A; simpl in A.
  - now inversion A; subst.
  - destruct (assign path p x data) as [d|] eqn:A1; try discriminate.
    apply (IH d data'); [|exact A].
    now apply (all_proxied_assign path p x data).
Qed.

Lemma frmz_Return nextId v schema data nextId' :
  frmz nextId v schema = Return (data, nextId') ->
  exists parsed copy,
    isProxiable v = true
    /\ parse (match schema with Some s => s | None => inferSchema v end) v = Some parsed
    /\ structuredClone parsed nextId = Some (copy, nextId')
    /\ isProxiable copy = true
    /\ data = createDeepProxy copy.
Proof.
  unfold frmz. intros F.
  destruct (isProxiable v); simpl in F; try discriminate.
  destruct (parse _ v) as [parsed|]; try discriminate.
  destruct (structuredClone parsed nextId) as [[copy n]|] eqn:C; try discriminate.
  destruct (isProxiable copy) eqn:Pc; inversion F; subst.
  now exists parsed, copy.
Qed.

Lemma lookup_set_field k v fields : lookup k (set_field k v fields) = Some v.
Proof.
  induction fields as [|[k' v'] rest IH]; simpl.
  - now rewrite String.eqb_refl.
  - destruct (k' =? k) eqn:E; simpl; [now rewrite String.eqb_refl | now rewrite E].
Qed.

Lemma nth_set_index i v items : nth i (set_index i v items) None = Some v.
Proof.
  revert items. induction i as [|j IH]; intros [|x rest]; simpl; auto.
Qed.

Lemma js_get_Reflect_set target p v target' :
  Reflect_set target p v = Some target' -> js_get target' p = Some v.
Proof.
  intros R.
  destruct target as [s|px b|px items|px cls fields]; try discriminate.
  - destruct p as [k|i]; try discriminate. inversion R; subst. apply nth_set_index.
  - inversion R; subst. apply lookup_set_field.
Qed.

Lemma unproxied_not_container x : is_container x = false -> unproxied (createDeepProxy x) = unproxied x.
Proof.
  rewrite is_container_cases. destruct x; try discriminate; reflexivity.
Qed.

(** Wrapping keeps the members: without the proxies, the deep proxy of a
    value is the value. *)
Lemma unproxied_createDeepProxy v : unproxied (createDeepProxy v) = unproxied v.
Proof.
  induction v as [s|px b|px items IH|px cls fields IH] using value_nested_ind;
    simpl; auto.
  - f_equal. rewrite map_map.
    induction IH as [|[x|] rest Hx _ IHr]; simpl; auto; rewrite IHr; f_equal.
    destruct (isProxiable x && negb (isBlobLike x)); [now rewrite Hx | reflexivity].
  - f_equal. rewrite map_map.
    induction IH as [|[k x] rest Hx _ IHr]; simpl in *; auto. rewrite IHr. f_equal.
    destruct (isProxiable x && negb (isBlobLike x)); [now rewrite Hx | reflexivity].
Qed.

Lemma unproxied_stored x : unproxied (stored x) = unproxied x.
Proof.
  unfold stored. destruct (isProxiable x && negb (isBlobLike x)); auto.
  apply unproxied_createDeepProxy.
Qed.

(** A clone holds no proxy. *)
Lemma structuredClone_unproxied v :
  forall n v' n', structuredClone v n = Some (v', n') -> unproxied v' = v'.
Proof.
  induction v as [s|px b|px items IH|px cls fields IH] using value_nested_ind;
    intros n v' n' H.
  - destruct s; simpl in H; try discriminate; now inversion H.
  - destruct px; simpl in H; try discriminate. now inversion H.
  - destruct px; [discriminate|]. rewrite structuredClone_array in H.
    unfold bind in H.
    destruct (cloneItems items n) as [[items' m]|] eqn:E; try discriminate.
    inversion H; subst. clear H. simpl. f_equal.
    revert n items' n' E.
    induction IH as [|[x|] rest Hx _ IHr]; intros n items' n' E; simpl in E.
    + now inversion E.
    + unfold bind in E.
      destruct (structuredClone x n) as [[x' m]|] eqn:Cx; try discriminate.
      destruct (cloneItems rest m) as [[rest' m']|] eqn:Cr; try discriminate.
      inversion E; subst. simpl.
      now rewrite (Hx _ _ _ Cx), (IHr _ _ _ Cr).
    + unfold bind in E.
      destruct (cloneItems rest n) as [[rest' m']|] eqn:Cr; try discriminate.
      inversion E; subst. simpl. now rewrite (IHr _ _ _ Cr).
  - destruct px; [discriminate|].
    destruct cls as [|time]; [|now inversion H].
    rewrite structuredClone_object in H. unfold bind in H.
    destruct (cloneFields fields n) as [[fields' m]|] eqn:E; try discriminate.
    inversion H; subst. clear H. simpl. f_equal.
    revert n fields' n' E.
    induction IH as [|[k x] rest Hx _ IHr]; intros n fields' n' E; simpl in E.
    + now inversion E.
    + unfold bind in E. simpl in Hx.
      destruct (structuredClone x n) as [[x' m]|] eqn:Cx; try discriminate.
      destruct (cloneFields rest m) as [[rest' m']|] eqn:Cr; try discriminate.
      inversion E; subst. simpl.
      now rewrite (Hx _ _ _ Cx), (IHr _ _ _ Cr).
Qed.

(** C5, as stated, fails: an object assigned through the handle is wrapped
    in place and stays shared with the caller.  After
    [data.x = o; o.b = {}] the object put into [o] is reachable from the
    handle, as [data.x.b], and is no proxy, although [data] and [data.x]
    are. *)
Lemma caller_alias_escapes_wrapping :
  exists h data o inner x,
    Heap.scenario = Some (h, data, o, inner)
    /\ Heap.is_proxy h (Heap.Ref data) = true
    /\ Heap.get 8 h data "x" = Heap.Ref x
    /\ nth_error h x = Some (Heap.ProxyObject o)
    /\ Heap.get 8 h x "b" = Heap.Ref inner
    /\ Heap.isProxiable (Heap.Ref inner) && negb (Heap.isBlobLike 8 h (Heap.Ref inner))
       = true
    /\ Heap.is_proxy h (Heap.Ref inner) = false.
Proof.
  eexists _, _, _, _, _. repeat split.
Qed.

(** C5, amended: as long as the tree changes through the handle only, every
    array and object under the handle is a proxy.  [createDeepProxy] makes a
    proxy of every array and object of its argument and keeps the members;
    the data [frmz] returns is the clone of the validated value so wrapped,
    and the invariant holds after every sequence of assignments through the
    handle; the [set] trap stores, for a container, its deep proxy with the
    same members and, for a blob or a primitive, the value itself. *)
Theorem wrapping_invariant :
  (forall v,
      all_proxied (createDeepProxy v) = true
      /\ unproxied (createDeepProxy v) = unproxied v)
  /\ (forall nextId v schema data nextId' ws data',
         frmz nextId v schema = Return (data, nextId') ->
         assign_all ws data = Some data' ->
         all_proxied data = true
         /\ all_proxied data' = true
         /\ exists parsed,
             parse (match schema with Some s => s | None => inferSchema v end) v
             = Some parsed
             /\ structuredClone parsed nextId = Some (unproxied data, nextId'))
  /\ (forall target p x target' r,
         handler_set target p x = Some (target', r) ->
         js_get target' p = Some (stored x)
         /\ all_proxied (stored x) = true
         /\ unproxied (stored x) = unproxied x
         /\ (is_container x = false -> stored x = x)
         /\ (all_proxied target = true -> all_proxied target' = true)).
Proof.
  split; [|split].
  - intros v. split; [apply all_proxied_createDeepProxy | apply unproxied_createDeepProxy].
  - intros nextId v schema data nextId' ws data' F A.
    apply frmz_Return in F as (parsed & copy & _ & P & C & _ & ->).
    split; [apply all_proxied_createDeepProxy|]. split.
    + eapply all_proxied_assign_all; eauto using all_proxied_createDeepProxy.
    + exists parsed. split; [exact P|].
      now rewrite unproxied_createDeepProxy, (structuredClone_unproxied _ _ _ _ C).
  - intros target p x target' r S.
    assert (G : js_get target' p = Some (stored x)).
    { unfold handler_set in S. fold (stored x) in S.
      destruct (Reflect_set target p (stored x)) as [t|] eqn:R; inversion S; subst.
      eapply js_get_Reflect_set; eauto. }
    split; [exact G|]. split; [apply (all_proxied_wrapped x)|].
    split; [apply unproxied_stored|]. split.
    + intros C. unfold stored. fold (is_container x). now rewrite C.
    + intros T. now apply (all_proxied_handler_set target p x target' r).
Qed.

Lemma wrapping_invariant_witness :
  exists data nextId data' target',
    frmz 0 bob None = Return (data, nextId)
    /\ assign_all [([PName "user"], PName "address", obj [("city", str "Oslo")]);
                   ([PName "tags"], PIndex 2, arr [str "c"])] data
       = Some data'
    /\ all_proxied data' = true
    /\ structuredClone bob 0 = Some (unproxied data, nextId)
    /\ handler_set data (PName "avatar") (VBlob false blob0) = Some (target', true)
    /\ js_get target' (PName "avatar") = Some (VBlob false blob0).
Proof.
  destruct wrapping_invariant as (_ & Handle & Trap).
  pose (ws := [([PName "user"], PName "address", obj [("city", str "Oslo")]);
               ([PName "tags"], PIndex 2, arr [str "c"])]).
  assert (F : frmz 0 bob None = Return (createDeepProxy bob, 0)) by reflexivity.
  assert (A : exists d, assign_all ws (createDeepProxy bob) = Some d)
    by (eexists; reflexivity).
  destruct A as [data' A].
  assert (S : exists t, handler_set (createDeepProxy bob) (PName "avatar")
                                    (VBlob false blob0) = Some (t, true))
    by (eexists; reflexivity).
  destruct S as [target' S].
  exists (createDeepProxy bob), 0, data', target'.
  destruct (Handle 0 bob None _ 0 ws data' F A) as (_ & All & parsed & P & C).
  destruct (Trap _ _ _ _ _ S) as (G & _ & _ & Leaf & _).
  split; [exact F|]. split; [exact A|]. split; [exact All|].
  split; [inversion P; subst; exact C|].
  split; [exact S|].
  rewrite G, (Leaf eq_refl). reflexivity.
Defined.

(** ** Writes never fail *)

Lemma Reflect_set_writable target p v :
  writable target p = true -> exists target', Reflect_set target p v = Some target'.
Proof.
  destruct target as [s|px b|px items|px cls fields], p as [k|i];
    try discriminate; intros _; eexists; reflexivity.
Qed.

Lemma js_get_writable node q child :
  js_get node q = Some child -> writable node q = true.
Proof.
  destruct node as [s|px b|px items|px cls fields], q as [k|i];
    try discriminate; reflexivity.
Qed.

Lemma handler_set_succeeds target p x :
  writable target p = true ->
  exists target', handler_set target p x = Some (target', true).
Proof.
  intros W. unfold handler_set.
  destruct (Reflect_set_writable target p
              (if isProxiable x && negb (isBlobLike x) then createDeepProxy x else x) W)
    as [t' ->].
  now exists t'.
Qed.

Lemma assign_succeeds path p x :
  forall node target,
    resolve path node = Some target -> writable target p = true ->
    exists node', assign path p x node = Some node'.
Proof.
  induction path as [|q rest IH]; intros node target R W; simpl in *.
  - inversion R; subst.
    destruct (is_proxy target).
    + destruct (handler_set_succeeds target p x W) as [t' ->]. now exists t'.
    + now apply Reflect_set_writable.
  - destruct (js_get node q) as [child|] eqn:G; try discriminate.
    destruct (IH child target R W) as [child' ->].
    apply Reflect_set_writable. now apply (js_get_writable node q child).
Qed.

(** C7: a write through the handle reports success whatever is written; the
    schema of the construction is not consulted. *)
Theorem writes_always_succeed :
  (forall target p x,
      writable target p = true ->
      exists target', handler_set target p x = Some (target', true))
  /\ (forall target p x target' r,
         handler_set target p x = Some (target', r) -> r = true)
  /\ (forall path p x data target,
         resolve path data = Some target -> writable target p = true ->
         exists data', assign path p x data = Some data')
  /\ (exists data nextId data',
         frmz 0 (obj [("n", num 1)]) None = Return (data, nextId)
         /\ assign [] (PName "n") (str "oops") data = Some data'
         /\ parse (inferSchema (obj [("n", num 1)])) data' = None).
Proof.
  repeat split.
  - apply handler_set_succeeds.
  - intros target p x target' r S. unfold handler_set in S.
    destruct (Reflect_set target p _); now inversion S.
  - intros path p x data target. apply assign_succeeds.
  - eexists _, _, _. repeat split.
Qed.

Lemma writes_always_succeed_witness :
  writable (VObject true ClsObject [("n", num 1)]) (PName "n") = true
  /\ exists target',
      handler_set (VObject true ClsObject [("n", num 1)]) (PName "n") (str "oops")
      = Some (target', true).
Proof.
  split; [reflexivity|].
  apply (proj1 writes_always_succeed). reflexivity.
Defined.

(** ** Blob references through the pipeline *)











Lemma createDeepProxy_container v :
  is_container (createDeepProxy v) = is_container v.
Proof.
  rewrite !is_container_cases. now destruct v.
Qed.

Lemma blobs_not_container x : is_container x = false -> blobs (createDeepProxy x) = blobs x.
Proof.
  rewrite is_container_cases. destruct x; try discriminate; reflexivity.
Qed.


Lemma flat_map_entry_blobs_under s ls :
  flat_map entry_blobs (map (under s) ls) = flat_map entry_blobs ls.
Proof.
  induction ls as [|l rest IH]; simpl; auto. now rewrite IH.
Qed.

(** The blobs among the leaves of a value are its blobs. *)
Lemma leaves_blobs v : flat_map entry_blobs (leaves v) = blobs v.
Proof.
  induction v as [s|px b|px items IH|px cls fields IH] using value_nested_ind;
    auto.
  - rewrite leaves_array. simpl. generalize 0.
    induction IH as [|[x|] rest Hx _ IHr]; intros i; simpl; auto.
    now rewrite flat_map_app, flat_map_entry_blobs_under, Hx, IHr.
  - rewrite leaves_object. simpl.
    induction IH as [|[k x] rest Hx _ IHr]; simpl in *; auto.
    now rewrite flat_map_app, flat_map_entry_blobs_under, Hx, IHr.
Qed.

Lemma getFormData_blobs data :
  is_container data = true -> formdata_blobs (getFormData data) = blobs data.
Proof.
  intros C. rewrite (getFormData_leaves data C). unfold formdata_blobs.
  rewrite <- leaves_blobs.
  induction (leaves data) as [|l rest IH]; simpl; auto. now rewrite IH.
Qed.

(** ** The inference round trip *)

Lemma distinct_lookup fields k x :
  distinct (map fst fields) = true -> In (k, x) fields -> lookup k fields = Some x.
Proof.
  induction fields as [|[k' v'] rest IH]; simpl; [tauto|].
  intros D [E|I]; apply andb_prop in D as [D1 D2].
  - inversion E; subst. now rewrite String.eqb_refl.
  - destruct (k' =? k) eqn:Ek; [|now apply IH].
    apply negb_true_iff in D1.
    assert (X : existsb (String.eqb k') (map fst rest) = true); [|congruence].
    apply existsb_exists. exists k. split; auto.
    now apply (in_map fst rest (k, x)).
Qed.

Lemma parseUnion_accepts opts x s y :
  In s opts -> parse s x = Some y -> exists y', parseUnion opts x = Some y'.
Proof.
  induction opts as [|o rest IH]; simpl; [tauto|].
  intros [E|I] P.
  - subst o. rewrite P. now exists y.
  - destruct (parse o x) as [z|]; [now exists z | now apply IH].
Qed.

Lemma parseElements_accepts e items :
  (forall slot, In slot items -> exists y, parse e (read_slot slot) = Some y) ->
  exists vs, parseElements e items = Some vs.
Proof.
  induction items as [|slot rest IH]; intros H; simpl.
  - now exists [].
  - destruct (H slot (or_introl eq_refl)) as [y ->].
    destruct IH as [vs ->]; [intros s I; apply H; now right|].
    now eexists.
Qed.

Lemma parseShape_accepts fields entries :
  (forall k s, In (k, s) entries ->
               exists y, parse s (read_slot (lookup k fields)) = Some y) ->
  exists pairs, parseShape fields entries = Some pairs.
Proof.
  induction entries as [|[k s] rest IH]; intros H; simpl.
  - now exists [].
  - destruct (H k s (or_introl eq_refl)) as [y ->].
    destruct IH as [pairs ->]; [intros k' s' I; apply H; now right|].
    now eexists.
Qed.

(** A composed value without [NaN] is accepted by the schema of its
    kind. *)
Lemma kind_schema_accepts v :
  composed v = true -> nan_free v = true ->
  exists v', parse (kind_schema v) v = Some v'.
Proof.
  induction v as [s|px b|px items IH|px cls fields IH] using value_nested_ind;
    intros C N.
  - destruct s as [| | |[]| | |]; try discriminate; now eexists.
  - now eexists.
  - change (kind_schema (VArray px items)) with (inferSchema (VArray px items)).
    rewrite inferSchema_array, parse_array.
    simpl in C, N. apply andb_prop in C as [_ C].
    rewrite forallb_forall in C, N. rewrite Forall_forall in IH.
    destruct (parseElements_accepts
                (match items with
                 | [] => ZUnknown
                 | _ :: _ => ZUnion (map (fun slot => kind_schema (read_slot slot)) items)
                 end) items) as [vs ->]; [|now eexists].
    intros slot I. destruct items as [|s0 r]; [destruct I|].
    rewrite parse_union.
    specialize (C slot I). specialize (N slot I). specialize (IH slot I).
    destruct slot as [x|]; [|discriminate].
    destruct (IH C N) as [y Py].
    apply (parseUnion_accepts _ _ (kind_schema x) y); auto.
    now apply (in_map (fun slot => kind_schema (read_slot slot)) _ (Some x)).
  - change (kind_schema (VObject px cls fields))
      with (inferSchema (VObject px cls fields)).
    rewrite inferSchema_object, parse_object.
    simpl in C, N.
    apply andb_prop in C as [C Cv]. apply andb_prop in C as [C D].
    apply andb_prop in C as [_ C]. destruct cls; [|discriminate].
    cbn [parsed_object].
    rewrite forallb_forall in Cv, N. rewrite Forall_forall in IH.
    destruct (parseShape_accepts fields
                (map (fun kv => (fst kv, kind_schema (snd kv))) fields))
      as [pairs ->]; [|now eexists].
    intros k s I. apply in_map_iff in I as ([k' x] & E & I).
    simpl in E. injection E as <- <-.
    rewrite (distinct_lookup fields k' x D I). simpl.
    apply (IH _ I); [apply (Cv _ I) | apply (N _ I)].
Qed.

(** On a value without Records, a schema without [z.object] that accepts
    returns the value itself. *)
Lemma parse_record_free schema :
  forall x x', object_free schema = true ->
               composed x = true -> record_free x = true ->
               parse schema x = Some x' -> x' = x.
Proof.
  induction schema as [| | | | | | |element IH|options IH|shape IH]
    using Schema_nested_ind; intros x x' F C R H.
  1-5: destruct x as [[| | |[]| | |]| | |]; simpl in H; try discriminate;
       now inversion H.
  - now inversion H.
  - simpl in H. destruct (instanceof_Blob x); now inversion H.
  - rewrite parse_array in H.
    destruct x as [s|px b|px items|px cls fields]; try discriminate.
    simpl in C, R, F. apply andb_prop in C as [Px C].
    destruct px; [discriminate|].
    destruct (parseElements element items) as [vs|] eqn:E; inversion H; subst.
    f_equal. clear H Px. revert vs E.
    induction items as [|slot rest IHr]; intros vs E; simpl in E.
    + now inversion E.
    + simpl in C, R.
      apply andb_prop in C as [C1 C2]. apply andb_prop in R as [R1 R2].
      destruct slot as [y|]; [|discriminate].
      destruct (parse element (read_slot (Some y))) as [y'|] eqn:Py; try discriminate.
      destruct (parseElements element rest) as [vs'|]; inversion E; subst.
      rewrite (IH y y' F C1 R1 Py). f_equal. now apply IHr.
  - rewrite parse_union in H. simpl in F.
    induction IH as [|o rest Ho _ IHr]; simpl in H, F; try discriminate.
    apply andb_prop in F as [F1 F2].
    destruct (parse o x) as [y|] eqn:Po.
    + inversion H; subst. now apply Ho.
    + now apply IHr.
  - discriminate.
Qed.

(** The schema of a value without Records has no [z.object]. *)
Lemma kind_schema_object_free v :
  record_free v = true -> object_free (kind_schema v) = true.
Proof.
  induction v as [s|px b|px items IH|px cls fields IH] using value_nested_ind;
    intros R; try discriminate.
  - now destruct s.
  - reflexivity.
  - change (kind_schema (VArray px items)) with (inferSchema (VArray px items)).
    rewrite inferSchema_array. simpl in R.
    destruct items as [|s0 r]; [reflexivity|].
    cbn [object_free]. apply forallb_forall.
    intros s I. apply in_map_iff in I as (slot & <- & I).
    rewrite forallb_forall in R. rewrite Forall_forall in IH.
    destruct slot as [x|]; [|reflexivity].
    apply (IH _ I), (R _ I).
Qed.

Lemma parseElements_id e items :
  (forall slot, In slot items -> exists x, slot = Some x /\ parse e x = Some x) ->
  parseElements e items = Some items.
Proof.
  induction items as [|slot rest IH]; intros H; simpl; auto.
  destruct (H slot (or_introl eq_refl)) as (x & -> & Px). simpl. rewrite Px.
  rewrite IH; auto. intros s I. apply H. now right.
Qed.

Lemma parseShape_id fields fs :
  (forall k x, In (k, x) fs ->
               lookup k fields = Some x /\ parse (kind_schema x) x = Some x) ->
  parseShape fields (map (fun kv => (fst kv, kind_schema (snd kv))) fs) = Some fs.
Proof.
  induction fs as [|[k x] rest IH]; intros H; simpl; auto.
  destruct (H k x (or_introl eq_refl)) as [L Px].
  unfold has_own. rewrite L. simpl. rewrite Px.
  rewrite IH; [|intros k' x' I; apply H; now right].
  now rewrite orb_true_r.
Qed.

Lemma Schema_eqb_eq a : forall b, Schema_eqb a b = true -> a = b.
Proof.
  induction a as [| | | | | | |element IH|options IH|shape IH]
    using Schema_nested_ind; intros b E; destruct b; try discriminate; auto.
  - simpl in E. f_equal. now apply IH.
  - simpl in E. f_equal. revert options0 E.
    induction IH as [|x xs Hx _ IHxs]; intros [|y ys] E; try discriminate; auto.
    apply andb_prop in E as [E1 E2]. f_equal; auto.
  - simpl in E. f_equal. revert shape0 E.
    induction IH as [|[k x] xs Hx _ IHxs]; intros [|[l y] ys] E;
      try discriminate; auto.
    apply andb_prop in E as [E E3]. apply andb_prop in E as [E1 E2].
    apply String.eqb_eq in E1. simpl in Hx. f_equal; auto.
    f_equal; auto.
Qed.

(** The schema of its kind returns a uniform value itself. *)
Lemma kind_schema_unchanged v :
  composed v = true -> nan_free v = true -> uniform v = true ->
  parse (kind_schema v) v = Some v.
Proof.
  induction v as [s|px b|px items IH|px cls fields IH] using value_nested_ind;
    intros C N U.
  - destruct s as [| | |[]| | |]; try discriminate; reflexivity.
  - reflexivity.
  - simpl in U. apply orb_prop in U as [R|U].
    + destruct (kind_schema_accepts _ C N) as [v' A].
      rewrite A. f_equal.
      apply (parse_record_free (kind_schema (VArray px items))); auto.
      now apply kind_schema_object_free.
    + apply andb_prop in U as [U S].
      change (kind_schema (VArray px items)) with (inferSchema (VArray px items)).
      rewrite inferSchema_array, parse_array.
      simpl in C, N. apply andb_prop in C as [Px C].
      destruct px; [discriminate|].
      rewrite forallb_forall in C, N, U, S. rewrite Forall_forall in IH.
      rewrite parseElements_id; auto.
      intros slot I. specialize (C slot I). specialize (N slot I).
      specialize (U slot I). specialize (S slot I). specialize (IH slot I).
      destruct slot as [x|]; [|discriminate].
      exists x. split; auto.
      destruct items as [|s0 r]; [destruct I|].
      rewrite parse_union. simpl in S |- *.
      apply Schema_eqb_eq in S. rewrite <- S.
      now rewrite (IH C N U).
  - change (kind_schema (VObject px cls fields))
      with (inferSchema (VObject px cls fields)).
    rewrite inferSchema_object, parse_object.
    simpl in C, N, U.
    apply andb_prop in C as [C Cv]. apply andb_prop in C as [C D].
    apply andb_prop in C as [Px C]. destruct cls; [|discriminate].
    destruct px; [discriminate|]. cbn [parsed_object].
    rewrite forallb_forall in Cv, N, U. rewrite Forall_forall in IH.
    rewrite parseShape_id; auto.
    intros k x I. split; [now apply distinct_lookup|].
    apply (IH _ I); [apply (Cv _ I) | apply (N _ I) | apply (U _ I)].
Qed.

Lemma inferSchema_root v :
  inferSchema v = match v with VScalar _ => ZUnknown | _ => kind_schema v end.
Proof.
  destruct v as [[]| | |]; reflexivity.
Qed.

(** C9, as stated, fails: a Record in a Sequence is parsed by the schema of
    an earlier element and loses the fields that schema does not name; and
    [NaN] is rejected by the schema inferred for it. *)
Lemma infer_parse_changes_value :
  composed (arr [obj [("a", str "x")]; obj [("a", str "y"); ("b", num 1)]]) = true
  /\ parse (inferSchema (arr [obj [("a", str "x")]; obj [("a", str "y"); ("b", num 1)]]))
           (arr [obj [("a", str "x")]; obj [("a", str "y"); ("b", num 1)]])
     = Some (arr [obj [("a", str "x")]; obj [("a", str "y")]])
  /\ parse (inferSchema (arr [obj [("a", str "x")]; obj [("a", str "y"); ("b", num 1)]]))
           (arr [obj [("a", str "x")]; obj [("a", str "y"); ("b", num 1)]])
     <> Some (arr [obj [("a", str "x")]; obj [("a", str "y"); ("b", num 1)]])
  /\ composed (obj [("n", VScalar (SNumber NaN))]) = true
  /\ parse (inferSchema (obj [("n", VScalar (SNumber NaN))]))
           (obj [("n", VScalar (SNumber NaN))])
     = None.
Proof.
  repeat split. discriminate.
Qed.

(** C9, amended: a composed value without [NaN] is accepted by its
    inferred schema, and is returned as it is when each of its Sequences
    holds no Record or holds elements of one schema. *)
Theorem infer_parse_round_trip v :
  composed v = true -> nan_free v = true ->
  (exists v', parse (inferSchema v) v = Some v')
  /\ (uniform v = true -> parse (inferSchema v) v = Some v).
Proof.
  intros C N. rewrite inferSchema_root.
  destruct v as [s|px b|px items|px cls fields].
  - split; [now eexists | reflexivity].
  - split; [now apply kind_schema_accepts | now apply kind_schema_unchanged].
  - split; [now apply kind_schema_accepts | now apply kind_schema_unchanged].
  - split; [now apply kind_schema_accepts | now apply kind_schema_unchanged].
Qed.

Lemma infer_parse_round_trip_witness :
  composed order = true /\ nan_free order = true /\ uniform order = true
  /\ parse (inferSchema order) order = Some order.
Proof.
  split; [reflexivity|]. split; [reflexivity|]. split; [reflexivity|].
  apply (proj2 (infer_parse_round_trip order eq_refl eq_refl)). reflexivity.
Defined.

(** ** Blob references: the whole pipeline *)







(** * Further properties *)

(** ** Flattening only appends *)

Lemma appendToFormData_app formData data parentKey :
  appendToFormData formData data parentKey
  = (formData ++ appendToFormData [] data parentKey)%list.
Proof.
  destruct (is_container data) eqn:C.
  - now rewrite (appendToFormData_leaves data C formData),
      (appendToFormData_leaves data C []).
  - rewrite is_container_cases in C.
    destruct data as [s|px b|px items|px cls fields]; try discriminate; simpl;
      now destruct (truthy parentKey); rewrite ?app_nil_r.
Qed.

(** X1: [appendToFormData] never removes or changes an entry of the
    [FormData] it is given: the result is that [FormData] followed by what
    the same call appends to an empty one, so flattening two values in turn
    concatenates their flattenings. *)
Theorem appendToFormData_only_appends formData data parentKey data' parentKey' :
  appendToFormData formData data parentKey
  = (formData ++ appendToFormData [] data parentKey)%list
  /\ appendToFormData (appendToFormData formData data parentKey) data' parentKey'
     = (formData ++ appendToFormData [] data parentKey
                 ++ appendToFormData [] data' parentKey')%list.
Proof.
  split; [apply appendToFormData_app|].
  rewrite (appendToFormData_app (appendToFormData formData data parentKey)).
  now rewrite (appendToFormData_app formData), app_assoc.
Qed.

(** ** Proxies are transparent to the walks *)

Lemma leaves_not_container x : is_container x = false -> leaves (createDeepProxy x) = leaves x.
Proof.
  rewrite is_container_cases. destruct x; try discriminate; reflexivity.
Qed.

Lemma leaves_createDeepProxy v : leaves (createDeepProxy v) = leaves v.
Proof.
  induction v as [s|px b|px items IH|px cls fields IH] using value_nested_ind;
    auto.
  - cbn [createDeepProxy]. rewrite !leaves_array. generalize 0.
    induction IH as [|[x|] rest Hx _ IHr]; intros i; simpl; auto.
    rewrite IHr. f_equal. f_equal.
    fold (is_container x). now destruct (is_container x).
  - cbn [createDeepProxy]. rewrite !leaves_object.
    induction IH as [|[k x] rest Hx _ IHr]; simpl in *; auto.
    rewrite IHr. f_equal. f_equal.
    fold (is_container x). now destruct (is_container x).
Qed.

Lemma leaves_stored x : leaves (stored x) = leaves x.
Proof.
  unfold stored. destruct (isProxiable x && negb (isBlobLike x)); auto.
  apply leaves_createDeepProxy.
Qed.

(** X2: wrapping does not change what is rendered: under any prefix and
    into any [FormData], the deep proxy of a value flattens to the same
    entries as the value. *)
Theorem createDeepProxy_renders_alike v :
  (forall formData parentKey,
      appendToFormData formData (createDeepProxy v) parentKey
      = appendToFormData formData v parentKey)
  /\ getFormData (createDeepProxy v) = getFormData v.
Proof.
  assert (H : forall formData parentKey,
             appendToFormData formData (createDeepProxy v) parentKey
             = appendToFormData formData v parentKey).
  { intros fd pk. destruct (is_container v) eqn:C.
    - rewrite !appendToFormData_leaves, leaves_createDeepProxy; auto.
      now rewrite createDeepProxy_container.
    - rewrite is_container_cases in C. destruct v; try discriminate; reflexivity. }
  split; [exact H | apply H].
Qed.

Lemma inferSchema_createDeepProxy v : inferSchema (createDeepProxy v) = inferSchema v.
Proof.
  induction v as [s|px b|px items IH|px cls fields IH] using value_nested_ind.
  - reflexivity.
  - reflexivity.
  - cbn [createDeepProxy]. rewrite !inferSchema_array. f_equal.
    match goal with
    | |- context [map ?w items] =>
        assert (E : map (fun slot => kind_schema (read_slot slot)) (map w items)
                    = map (fun slot => kind_schema (read_slot slot)) items)
    end.
    { induction IH as [|[x|] rest Hx _ IHr]; simpl; auto; rewrite IHr; f_equal.
      fold (is_container x). destruct (is_container x) eqn:C; auto.
      rewrite is_container_cases in C. destruct x; try discriminate; apply Hx. }
    destruct items as [|s0 r]; [reflexivity|].
    exact (f_equal ZUnion E).
  - cbn [createDeepProxy]. rewrite !inferSchema_object. f_equal.
    rewrite map_map.
    induction IH as [|[k x] rest Hx _ IHr]; simpl in *; auto. rewrite IHr. f_equal.
    f_equal. fold (is_container x). destruct (is_container x) eqn:C; auto.
    rewrite is_container_cases in C. destruct x; try discriminate; apply Hx.
Qed.

(** X3: schema inference reads through proxies: the deep proxy of a value
    has the schema of the value, and so has what the [set] trap stores for
    it. *)
Theorem inferSchema_ignores_proxies v :
  inferSchema (createDeepProxy v) = inferSchema v
  /\ inferSchema (stored v) = inferSchema v
  /\ memberSchema (stored v) = memberSchema v.
Proof.
  split; [apply inferSchema_createDeepProxy|].
  unfold stored. fold (is_container v).
  destruct (is_container v) eqn:C; [|now split].
  split; [apply inferSchema_createDeepProxy|].
  rewrite !memberSchema_kind. rewrite is_container_cases in C.
  destruct v; try discriminate; apply inferSchema_createDeepProxy.
Qed.

(** ** A write changes the written property only *)

Lemma lookup_set_field_other k k' v fields :
  k' <> k -> lookup k' (set_field k v fields) = lookup k' fields.
Proof.
  intros N. induction fields as [|[a b] rest IH]; simpl.
  - destruct (k =? k') eqn:E; auto. apply String.eqb_eq in E. congruence.
  - destruct (a =? k) eqn:E; simpl.
    + apply String.eqb_eq in E. subst a.
      destruct (k =? k') eqn:E'; auto. apply String.eqb_eq in E'. congruence.
    + now rewrite IH.
Qed.

Lemma nth_set_index_other i v :
  forall items j, j <> i -> nth j (set_index i v items) None = nth j items None.
Proof.
  induction i as [|i IH]; intros [|x rest] [|j] N; simpl; auto; try congruence;
    try (now destruct j);
    try (rewrite IH by congruence; now destruct j);
    apply IH; congruence.
Qed.

Lemma js_get_Reflect_set_other target p v target' q :
  Reflect_set target p v = Some target' ->
  property_key q <> property_key p ->
  js_get target' q = js_get target q.
Proof.
  intros R N.
  destruct target as [s|px b|px items|px cls fields]; try discriminate.
  - destruct p as [k|i]; try discriminate. inversion R; subst.
    destruct q as [k|j]; simpl; auto.
    apply nth_set_index_other. congruence.
  - inversion R; subst. simpl. now apply lookup_set_field_other.
Qed.

Lemma length_set_index i v :
  forall items, List.length (set_index i v items) = Nat.max (List.length items) (S i).
Proof.
  induction i as [|i IH]; intros [|x rest]; simpl; rewrite ?IH; simpl; lia.
Qed.

(** X4: a write through the [set] trap changes the written field or
    element only: every other field of an object, and every other index of
    an array, reads as before; the [length] of an array becomes the larger of
    its old length and the written index plus one, so that a write at or
    past the end extends the array. *)
Theorem write_leaves_other_properties target p x target' r :
  handler_set target p x = Some (target', r) ->
  (is_sequence target = false ->
   forall q, property_key q <> property_key p ->
             js_get target' q = js_get target q)
  /\ (forall i j, is_sequence target = true -> p = PIndex i -> j <> i ->
                  js_get target' (PIndex j) = js_get target (PIndex j))
  /\ (forall px items i, target = VArray px items -> p = PIndex i ->
                         array_length target'
                         = Some (Nat.max (List.length items) (S i))).
Proof.
  unfold handler_set. intros S.
  destruct (Reflect_set target p _) as [t|] eqn:R; inversion S; subst. clear S.
  split; [|split].
  - intros _ q N. now apply (js_get_Reflect_set_other target p _ target' q R).
  - intros i j Sq -> N.
    destruct target as [s|px b|px items|px cls fields]; try discriminate.
    inversion R; subst. simpl. now apply nth_set_index_other.
  - intros px items i -> ->. inversion R; subst. simpl.
    now rewrite length_set_index.
Qed.

Lemma write_leaves_other_properties_witness :
  exists target',
    handler_set (VArray true [Some (str "a")]) (PIndex 2) (str "c") = Some (target', true)
    /\ js_get target' (PIndex 0) = js_get (VArray true [Some (str "a")]) (PIndex 0)
    /\ array_length target' = Some 3.
Proof.
  assert (S : exists t, handler_set (VArray true [Some (str "a")]) (PIndex 2) (str "c")
                        = Some (t, true)) by (eexists; reflexivity).
  destruct S as [target' S]. exists target'.
  destruct (write_leaves_other_properties _ _ _ _ _ S) as (_ & Other & Length).
  split; [exact S|]. split.
  - apply (Other 2 0); [reflexivity | reflexivity | discriminate].
  - apply (Length true [Some (str "a")] 2); reflexivity.
Defined.

(** ** What is written is rendered *)

Lemma leavesElements_nth items :
  forall off i child leaf,
    nth i items None = Some child -> In leaf (leaves child) ->
    In (under (SegIndex (off + i)) leaf) (leavesElements items off).
Proof.
  induction items as [|slot rest IH]; intros off i child leaf G L.
  - destruct i; discriminate.
  - destruct i as [|i]; simpl in G.
    + subst slot. simpl. rewrite Nat.add_0_r.
      apply in_or_app. left. now apply in_map.
    + rewrite Nat.add_succ_r.
      destruct slot as [y|]; simpl; [apply in_or_app; right|];
        exact (IH (S off) i child leaf G L).
Qed.

Lemma leavesMembers_lookup k fields child leaf :
  lookup k fields = Some child -> In leaf (leaves child) ->
  In (under (SegField k) leaf) (leavesMembers fields).
Proof.
  induction fields as [|[k' v'] rest IH]; simpl; [discriminate|].
  intros G L. apply in_or_app. destruct (k' =? k) eqn:E.
  - apply String.eqb_eq in E. inversion G; subst. left. now apply in_map.
  - right. now apply IH.
Qed.

Lemma leaves_js_get node q child leaf :
  js_get node q = Some child -> In leaf (leaves child) ->
  exists seg, segment_text seg = property_key q /\ In (under seg leaf) (leaves node).
Proof.
  intros G L.
  destruct node as [s|px b|px items|px cls fields]; try discriminate.
  - destruct q as [k|i]; try discriminate. simpl in G.
    exists (SegIndex i). split; auto.
    rewrite leaves_array. now apply (leavesElements_nth items 0 i child).
  - simpl in G. exists (SegField (property_key q)). split; auto.
    rewrite leaves_object. now apply (leavesMembers_lookup _ fields child).
Qed.

Lemma child_key_text p s s' :
  segment_text s = segment_text s' -> child_key p s = child_key p s'.
Proof.
  unfold child_key. now intros ->.
Qed.

Lemma fold_left_child_key_text segs :
  forall segs' p,
    map segment_text segs = map segment_text segs' ->
    fold_left child_key segs p = fold_left child_key segs' p.
Proof.
  induction segs as [|s rest IH]; intros [|s' rest'] p E; try discriminate; auto.
  simpl in *. inversion E. rewrite (child_key_text p s s'); auto.
Qed.

Lemma Reflect_set_container target p v target' :
  Reflect_set target p v = Some target' -> is_container target' = true.
Proof.
  destruct target as [s|px b|px items|px cls fields], p as [k|i];
    try discriminate; intros R; inversion R; reflexivity.
Qed.

Lemma assign_base node p x node' :
  assign [] p x node = Some node' ->
  exists y, Reflect_set node p y = Some node' /\ leaves y = leaves x.
Proof.
  simpl. destruct (is_proxy node).
  - unfold handler_set. fold (stored x).
    destruct (Reflect_set node p (stored x)) as [t|] eqn:R; try discriminate.
    intros E. inversion E; subst. exists (stored x). split; auto.
    apply leaves_stored.
  - intros R. now exists x.
Qed.

Lemma assign_container path p x :
  forall node node', assign path p x node = Some node' -> is_container node' = true.
Proof.
  destruct path as [|q rest]; intros node node' A.
  - apply assign_base in A as (y & R & _). now apply Reflect_set_container in R.
  - simpl in A. destruct (js_get node q); try discriminate.
    destruct (assign rest p x v); try discriminate.
    now apply Reflect_set_container in A.
Qed.

Lemma assign_leaves path p x :
  forall node node' leaf,
    assign path p x node = Some node' -> In leaf (leaves x) ->
    exists segs,
      map segment_text segs = map property_key (path ++ [p])
      /\ In ((segs ++ fst leaf)%list, snd leaf) (leaves node').
Proof.
  induction path as [|q rest IH]; intros node node' leaf A L.
  - apply assign_base in A as (y & R & Ly). rewrite <- Ly in L.
    apply js_get_Reflect_set in R.
    destruct (leaves_js_get node' p y leaf R L) as (seg & T & I).
    exists [seg]. split; [simpl; now rewrite T | exact I].
  - simpl in A. destruct (js_get node q) as [child|]; try discriminate.
    destruct (assign rest p x child) as [child'|] eqn:A'; try discriminate.
    destruct (IH child child' leaf A' L) as (segs & T & I).
    apply js_get_Reflect_set in A.
    destruct (leaves_js_get node' q child' _ A I) as (seg & Tq & Iq).
    exists (seg :: segs). split; [simpl; now rewrite Tq, T | exact Iq].
Qed.

(** X5: whatever is assigned through the handle to a field of an object or
    to an index of an array, at any depth, is in the next rendering: the
    write succeeds, and the host's [FormData] then holds every leaf of the
    assigned value under the key of the assigned property followed by the
    leaf's own path; an assigned primitive as its text, an assigned [File]
    as the [File] itself and an assigned [Blob] that is not a [File] as a
    new [File] over the same bytes, under the key of the property. *)
Theorem written_value_is_rendered path p x data target :
  resolve path data = Some target -> writable target p = true ->
  exists data',
    assign path p x data = Some data'
    /\ (forall leaf, In leaf (leaves x) ->
                     In (fst (at_prefix (path_key (path ++ [p])) leaf), held (snd leaf))
                        (entries (getFormData data')))
    /\ (forall s, x = VScalar s ->
                  In (path_key (path ++ [p]), HeldString (String_ s))
                     (entries (getFormData data')))
    /\ (forall px b, x = VBlob px b -> blob_is_file b = true ->
                     In (path_key (path ++ [p]), HeldFile b)
                        (entries (getFormData data')))
    /\ (forall px b, x = VBlob px b -> blob_is_file b = false ->
                     In (path_key (path ++ [p]), HeldNewFile "blob" (blob_bytes b))
                        (entries (getFormData data'))).
Proof.
  intros R W.
  destruct (assign_succeeds path p x data target R W) as [data' A].
  exists data'. split; [exact A|].
  assert (H : forall leaf, In leaf (leaves x) ->
                           In (fst (at_prefix (path_key (path ++ [p])) leaf),
                               held (snd leaf))
                              (entries (getFormData data'))).
  { intros leaf L.
    destruct (assign_leaves path p x data data' leaf A L) as (segs & T & I).
    rewrite (getFormData_leaves data') by now apply (assign_container path p x data).
    apply (in_map keyed) in I.
    apply (in_map (fun call => (fst call, held (snd call)))) in I.
    replace (fst (at_prefix (path_key (path ++ [p])) leaf))
      with (fst (keyed ((segs ++ fst leaf)%list, snd leaf))); auto.
    unfold keyed, at_prefix, path_key, bracket_key. simpl.
    rewrite fold_left_app. f_equal.
    apply fold_left_child_key_text. now rewrite T, map_map. }
  split; [exact H|]. split; [|split].
  - intros s ->. apply (H ([], EString (String_ s))). now left.
  - intros px b -> F. specialize (H ([], EBlob b) (or_introl eq_refl)).
    simpl in H. unfold held in H. now rewrite F in H.
  - intros px b -> F. specialize (H ([], EBlob b) (or_introl eq_refl)).
    simpl in H. unfold held in H. now rewrite F in H.
Qed.

Lemma written_value_is_rendered_witness :
  exists data',
    assign [PName "user"; PName "files"] (PIndex 2) (VBlob false blob0)
           (VObject true ClsObject
              [("user", VObject true ClsObject [("files", VArray true [])])])
    = Some data'
    /\ In ("user[files][2]", HeldNewFile "blob" "bytes") (entries (getFormData data')).
Proof.
  destruct (written_value_is_rendered
              [PName "user"; PName "files"] (PIndex 2) (VBlob false blob0)
              (VObject true ClsObject
                 [("user", VObject true ClsObject [("files", VArray true [])])])
              (VArray true []) eq_refl eq_refl)
    as (data' & A & _ & _ & _ & NewFile).
  exists data'. split; [exact A|].
  apply (NewFile false blob0); reflexivity.
Defined.

(** ** The first rendering is the flattening of the input *)

Lemma contents_app {K} (a b : list (K * FormDataEntryValue)) :
  contents (a ++ b) = (contents a ++ contents b)%list.
Proof.
  apply map_app.
Qed.

Lemma contents_under s ls ls' :
  contents ls' = contents ls ->
  contents (map (under s) ls') = contents (map (under s) ls).
Proof.
  unfold contents. rewrite !map_map. revert ls'.
  induction ls as [|l rest IH]; intros [|l' rest'] E; try discriminate; auto.
  simpl in *. injection E as E1 E2 E3. rewrite E1, E2. f_equal. now apply IH.
Qed.

Lemma contents_keyed ls ls' :
  contents ls' = contents ls -> contents (map keyed ls') = contents (map keyed ls).
Proof.
  unfold contents. rewrite !map_map. revert ls'.
  induction ls as [|l rest IH]; intros [|l' rest'] E; try discriminate; auto.
  simpl in *. injection E as E1 E2 E3. rewrite E1, E2. f_equal. now apply IH.
Qed.

(** A composed value is cloned into a value with the same leaves, up to the
    identity of the blobs. *)
Lemma structuredClone_composed v :
  composed v = true ->
  forall n, exists v' n',
      structuredClone v n = Some (v', n')
      /\ contents (leaves v') = contents (leaves v)
      /\ is_container v' = is_container v.
Proof.
  induction v as [s|px b|px items IH|px cls fields IH] using value_nested_ind;
    intros C n.
  - destruct s; try discriminate; eexists _, _; repeat split.
  - destruct px; [discriminate|]. eexists _, _; repeat split.
  - simpl in C. apply andb_prop in C as [Px C]. destruct px; [discriminate|].
    assert (H : forall n off, exists items' n',
                 cloneItems items n = Some (items', n')
                 /\ contents (leavesElements items' off)
                    = contents (leavesElements items off)).
    { clear n Px. induction IH as [|[x|] rest Hx _ IHr]; intros n off;
        simpl in C; try discriminate.
      - eexists _, _. split; reflexivity.
      - apply andb_prop in C as [Cx Cr].
        destruct (Hx Cx n) as (x' & m & Ex & Lx & _).
        destruct (IHr Cr m (S off)) as (rest' & m' & Er & Lr).
        exists (Some x' :: rest'), m'. simpl. unfold bind. rewrite Ex, Er.
        split; [reflexivity|].
        rewrite !contents_app, Lr. f_equal. now apply contents_under. }
    destruct (H n 0) as (items' & n' & E & L).
    exists (VArray false items'), n'.
    rewrite structuredClone_array. unfold bind. rewrite E.
    rewrite !leaves_array. repeat split; auto.
  - simpl in C. apply andb_prop in C as [C Cv]. apply andb_prop in C as [C D].
    apply andb_prop in C as [Px C]. destruct cls; [|discriminate].
    destruct px; [discriminate|].
    assert (H : forall n, exists fields' n',
                 cloneFields fields n = Some (fields', n')
                 /\ contents (leavesMembers fields') = contents (leavesMembers fields)).
    { clear n Px D. induction IH as [|[k x] rest Hx _ IHr]; intros n; simpl in Cv.
      - eexists _, _. split; reflexivity.
      - apply andb_prop in Cv as [Cx Cr]. simpl in Hx.
        destruct (Hx Cx n) as (x' & m & Ex & Lx & _).
        destruct (IHr Cr m) as (rest' & m' & Er & Lr).
        exists ((k, x') :: rest'), m'. simpl. unfold bind. rewrite Ex, Er.
        split; [reflexivity|].
        rewrite !contents_app, Lr. f_equal. now apply contents_under. }
    destruct (H n) as (fields' & n' & E & L).
    exists (VObject false ClsObject fields'), n'.
    rewrite structuredClone_object. unfold bind. rewrite E.
    rewrite !leaves_object. repeat split; auto.
Qed.

Lemma contents_no_blobs (a b : FormData) :
  contents a = contents b -> formdata_blobs b = [] -> a = b.
Proof.
  revert a. induction b as [|[k e] rest IH]; intros [|[k' e'] rest'] E B;
    try discriminate; auto.
  destruct e as [s|bl]; [|discriminate].
  destruct e' as [s'|bl']; [|discriminate].
  simpl in E. injection E as E1 E2 E3. subst k' s'.
  f_equal. now apply IH.
Qed.

(** X6: for a Record or Sequence composed of primitives other than [NaN],
    Records, Sequences and blobs, and uniform, [frmz] with the inferred
    schema returns a handle whose first rendering has the keys and the
    contents of the flattening of the input, in the same order; the two are
    equal when the input holds no blob. *)
Theorem first_render_is_input_flattening nextId v :
  composed v = true -> nan_free v = true -> uniform v = true ->
  is_container v = true ->
  exists data nextId',
    frmz nextId v None = Return (data, nextId')
    /\ contents (getFormData data) = contents (getFormData v)
    /\ (blobs v = [] -> getFormData data = getFormData v).
Proof.
  intros C N U K.
  destruct (structuredClone_composed v C nextId) as (v' & n' & E & L & K').
  rewrite K in K'.
  assert (P : parse (inferSchema v) v = Some v).
  { rewrite inferSchema_root. rewrite is_container_cases in K.
    destruct v; try discriminate; now apply kind_schema_unchanged. }
  assert (Pv : isProxiable v = true) by now apply andb_prop in K as [-> _].
  assert (Pv' : isProxiable v' = true) by now apply andb_prop in K' as [-> _].
  exists (createDeepProxy v'), n'.
  assert (R : contents (getFormData (createDeepProxy v')) = contents (getFormData v)).
  { rewrite !getFormData_leaves, leaves_createDeepProxy;
      rewrite ?createDeepProxy_container; auto.
    now apply contents_keyed. }
  split; [|split; auto].
  - unfold frmz. now rewrite Pv, P, E, Pv'.
  - intros B. apply contents_no_blobs; auto.
    now rewrite getFormData_blobs.
Qed.

Lemma first_render_is_input_flattening_witness :
  exists data nextId',
    frmz 1 order None = Return (data, nextId')
    /\ contents (getFormData data) = contents (getFormData order)
    /\ (blobs order = [] -> getFormData data = getFormData order).
Proof.
  apply (first_render_is_input_flattening 1 order); reflexivity.
Defined.

(** ** Functions and symbols cannot be managed *)

Lemma parse_function_or_symbol schema :
  forall x y, is_function_or_symbol x = true -> parse schema x = Some y -> y = x.
Proof.
  induction schema as [| | | | | | |element IH|options IH|shape IH]
    using Schema_nested_ind; intros x y F H;
    destruct x as [[]| | |]; try discriminate F.
  all: try discriminate H.
  all: try (now inversion H).
  all: rewrite parse_union in H;
    induction IH as [|o rest Ho _ IHr]; simpl in H; try discriminate;
    match type of H with
    | context [parse o ?x] =>
        destruct (parse o x) as [z|] eqn:Po;
        [inversion H; subst; now apply Ho | now apply IHr]
    end.
Qed.

Lemma parseElements_In e items vs slot :
  parseElements e items = Some vs -> In slot items ->
  exists y, parse e (read_slot slot) = Some y /\ In (Some y) vs.
Proof.
  revert vs. induction items as [|s0 rest IH]; intros vs E I; [destruct I|].
  simpl in E.
  destruct (parse e (read_slot s0)) as [y0|] eqn:P0; try discriminate.
  destruct (parseElements e rest) as [vs'|]; inversion E; subst.
  destruct I as [->|I].
  - exists y0. split; auto. now left.
  - destruct (IH vs' eq_refl I) as (y & Py & Iy). exists y. split; auto. now right.
Qed.

Lemma parseShape_In fields entries pairs k s :
  parseShape fields entries = Some pairs -> In (k, s) entries ->
  exists y, parse s (read_slot (lookup k fields)) = Some y
            /\ (negb (is_undefined y) || has_own k fields = true -> In (k, y) pairs).
Proof.
  revert pairs. induction entries as [|[k0 s0] rest IH]; intros pairs E I; [destruct I|].
  simpl in E.
  destruct (parse s0 (read_slot (lookup k0 fields))) as [y0|] eqn:P0; try discriminate.
  destruct (parseShape fields rest) as [pairs'|]; try discriminate.
  destruct I as [I|I].
  - inversion I; subst. exists y0. split; auto. intros H.
    rewrite H in E. inversion E; subst. now left.
  - destruct (IH pairs' eq_refl I) as (y & Py & Iy). exists y. split; auto.
    intros H. specialize (Iy H).
    destruct (negb (is_undefined y0) || has_own k0 fields); inversion E; subst; auto.
    now right.
Qed.

Lemma cloneItems_In xs :
  forall n xs' n' x,
    cloneItems xs n = Some (xs', n') -> In (Some x) xs ->
    exists m r, structuredClone x m = Some r.
Proof.
  induction xs as [|[y|] rest IH]; intros n xs' n' x E I; [destruct I| |];
    simpl in E; unfold bind in E.
  - destruct (structuredClone y n) as [[y' m]|] eqn:Cy; try discriminate.
    destruct (cloneItems rest m) as [[rest' m']|] eqn:Cr; try discriminate.
    destruct I as [I|I].
    + inversion I; subst. eexists _, _; eassumption.
    + now apply (IH m rest' m' x).
  - destruct (cloneItems rest n) as [[rest' m']|] eqn:Cr; try discriminate.
    destruct I as [I|I]; [discriminate|]. now apply (IH n rest' m' x).
Qed.

Lemma cloneFields_In xs :
  forall n xs' n' k x,
    cloneFields xs n = Some (xs', n') -> In (k, x) xs ->
    exists m r, structuredClone x m = Some r.
Proof.
  induction xs as [|[k0 y] rest IH]; intros n xs' n' k x E I; [destruct I|].
  simpl in E. unfold bind in E.
  destruct (structuredClone y n) as [[y' m]|] eqn:Cy; try discriminate.
  destruct (cloneFields rest m) as [[rest' m']|] eqn:Cr; try discriminate.
  destruct I as [I|I].
  - inversion I; subst. eexists _, _; eassumption.
  - now apply (IH m rest' m' k x).
Qed.

Lemma structuredClone_function_or_symbol x m :
  is_function_or_symbol x = true -> structuredClone x m = None.
Proof.
  destruct x as [[]| | |]; try discriminate; reflexivity.
Qed.

(** X7: a function or a symbol directly in the root Record (under distinct
    field names) or in the root Sequence is accepted by the inferred schema
    but cannot be cloned: [frmz] without a schema throws, a [ZodError] when
    another member is rejected and a [DataCloneError] otherwise, and returns
    no handle. *)
Theorem function_member_is_not_managed nextId x :
  is_function_or_symbol x = true ->
  (forall px fields k,
      distinct (map fst fields) = true -> In (k, x) fields ->
      frmz nextId (VObject px ClsObject fields) None = Throw ZodError
      \/ frmz nextId (VObject px ClsObject fields) None = Throw DataCloneError)
  /\ (forall px items,
         In (Some x) items ->
         frmz nextId (VArray px items) None = Throw ZodError
         \/ frmz nextId (VArray px items) None = Throw DataCloneError).
Proof.
  intros F. split.
  - intros px fields k D I. unfold frmz. cbn [isProxiable typeof is_null negb andb].
    cbn [String.eqb Ascii.eqb Bool.eqb].
    destruct (parse (inferSchema (VObject px ClsObject fields))
                    (VObject px ClsObject fields)) as [parsed|] eqn:P; [right|now left].
    rewrite inferSchema_object, parse_object in P. cbn [parsed_object] in P.
    destruct (parseShape fields _) as [pairs|] eqn:S; inversion P; subst. clear P.
    destruct (parseShape_In fields _ pairs k (kind_schema x) S) as (y & Py & Iy).
    { apply (in_map (fun kv => (fst kv, kind_schema (snd kv))) fields (k, x) I). }
    rewrite (distinct_lookup fields k x D I) in Py. simpl in Py.
    apply (parse_function_or_symbol _ x y F) in Py. subst y.
    assert (Ix : In (k, x) pairs).
    { apply Iy. destruct x as [[]| | |]; try discriminate F; reflexivity. }
    destruct (structuredClone (VObject false ClsObject pairs) nextId)
      as [[copy n']|] eqn:C; auto.
    rewrite structuredClone_object in C. unfold bind in C.
    destruct (cloneFields pairs nextId) as [[pairs' m]|] eqn:Cf; try discriminate.
    destruct (cloneFields_In pairs _ _ _ k x Cf Ix) as (m' & r & Cx).
    now rewrite (structuredClone_function_or_symbol x m' F) in Cx.
  - intros px items I. unfold frmz. cbn [isProxiable typeof is_null negb andb].
    cbn [String.eqb Ascii.eqb Bool.eqb].
    destruct (parse (inferSchema (VArray px items)) (VArray px items))
      as [parsed|] eqn:P; [right|now left].
    rewrite inferSchema_array, parse_array in P.
    destruct (parseElements _ items) as [vs|] eqn:S; inversion P; subst. clear P.
    destruct (parseElements_In _ items vs (Some x) S I) as (y & Py & Iy).
    simpl in Py. apply (parse_function_or_symbol _ x y F) in Py. subst y.
    destruct (structuredClone (VArray false vs) nextId) as [[copy n']|] eqn:C; auto.
    rewrite structuredClone_array in C. unfold bind in C.
    destruct (cloneItems vs nextId) as [[vs' m]|] eqn:Ci; try discriminate.
    destruct (cloneItems_In vs _ _ _ x Ci Iy) as (m' & r & Cx).
    now rewrite (structuredClone_function_or_symbol x m' F) in Cx.
Qed.

Lemma function_member_is_not_managed_witness :
  frmz 0 (obj [("name", str "Ann"); ("onSave", VScalar (SFunction "() => save()"))]) None
  = Throw ZodError
  \/ frmz 0 (obj [("name", str "Ann"); ("onSave", VScalar (SFunction "() => save()"))]) None
     = Throw DataCloneError.
Proof.
  apply (proj1 (function_member_is_not_managed 0
                  (VScalar (SFunction "() => save()")) eq_refl)
           false [("name", str "Ann"); ("onSave", VScalar (SFunction "() => save()"))]
           "onSave").
  - reflexivity.
  - right. now left.
Defined.

(** ** Keys are namespaced by the prefix *)

Lemma string_append_assoc (a b c : string) : (a ++ b) ++ c = a ++ (b ++ c).
Proof.
  induction a as [|ch a IH]; simpl; auto. now rewrite IH.
Qed.

Lemma truthy_append a b : truthy a = true -> truthy (a ++ b) = true.
Proof.
  now destruct a.
Qed.

Lemma fold_child_key_prefix path :
  forall p, truthy p = true -> path <> [] ->
            exists rest, fold_left child_key path p = p ++ "[" ++ rest.
Proof.
  induction path as [|s rest IH]; intros p T N; [congruence|].
  simpl. unfold child_key at 2. rewrite T.
  destruct rest as [|s' rest'].
  - simpl. now eexists.
  - destruct (IH (p ++ "[" ++ segment_text s ++ "]")) as [r E];
      [now apply truthy_append | discriminate |].
    rewrite E, string_append_assoc. now eexists.
Qed.

Lemma leaves_path_nonempty data leaf :
  is_container data = true -> In leaf (leaves data) -> fst leaf <> [].
Proof.
  rewrite is_container_cases.
  destruct data as [s|px b|px items|px cls fields]; try discriminate; intros _.
  - rewrite leaves_array. generalize 0.
    induction items as [|[x|] rest IH]; intros i I; simpl in I; [destruct I| |];
      [apply in_app_or in I as [I|I]|]; eauto.
    apply in_map_iff in I as (l & <- & _). discriminate.
  - rewrite leaves_object.
    induction fields as [|[k x] rest IH]; intros I; simpl in I; [destruct I|].
    apply in_app_or in I as [I|I]; eauto.
    apply in_map_iff in I as (l & <- & _). discriminate.
Qed.

(** X8: every entry that flattening a Record or Sequence under a non-empty
    prefix appends has a key that starts with the prefix and an opening
    bracket: the entries of a nested value stay in the name space of the
    field that holds it. *)
Theorem nested_keys_start_with_prefix formData data parentKey key e :
  truthy parentKey = true -> is_container data = true ->
  In (key, e) (appendToFormData formData data parentKey) ->
  In (key, e) formData \/ exists rest, key = parentKey ++ "[" ++ rest.
Proof.
  intros T C I. rewrite (appendToFormData_leaves data C) in I.
  apply in_app_or in I as [I|I]; [now left | right].
  apply in_map_iff in I as (leaf & E & L).
  unfold at_prefix in E. inversion E; subst.
  apply fold_child_key_prefix; auto.
  now apply (leaves_path_nonempty data).
Qed.

Lemma nested_keys_start_with_prefix_witness :
  In ("user[name]", EString "Bob") []
  \/ exists rest, "user[name]" = "user" ++ "[" ++ rest.
Proof.
  apply (nested_keys_start_with_prefix [] (obj [("name", str "Bob")]) "user"
           "user[name]" (EString "Bob")).
  - reflexivity.
  - reflexivity.
  - now left.
Defined.

(** ** The last write wins *)

Lemma set_field_twice k x y fields :
  set_field k y (set_field k x fields) = set_field k y fields.
Proof.
  induction fields as [|[a b] rest IH]; simpl.
  - now rewrite String.eqb_refl.
  - destruct (a =? k) eqn:E; simpl.
    + now rewrite String.eqb_refl.
    + now rewrite E, IH.
Qed.

Lemma set_index_twice i x y :
  forall items, set_index i y (set_index i x items) = set_index i y items.
Proof.
  induction i as [|i IH]; intros [|s rest]; simpl; auto; now rewrite IH.
Qed.

(** X9: a second write to the same property replaces the first without a
    trace: the target after both writes is the target after the second
    alone. *)
Theorem last_write_wins target p x y target1 r :
  handler_set target p x = Some (target1, r) ->
  handler_set target1 p y = handler_set target p y.
Proof.
  unfold handler_set. intros S.
  destruct (Reflect_set target p _) as [t|] eqn:R; inversion S; subst. clear S.
  destruct target as [s|px b|px items|px cls fields]; try discriminate.
  - destruct p as [k|i]; try discriminate. inversion R; subst.
    simpl. now rewrite set_index_twice.
  - inversion R; subst. simpl. now rewrite set_field_twice.
Qed.

Lemma last_write_wins_witness :
  handler_set (VObject true ClsObject [("n", str "draft")]) (PName "n") (num 2)
  = handler_set (VObject true ClsObject [("n", num 1)]) (PName "n") (num 2).
Proof.
  apply (last_write_wins (VObject true ClsObject [("n", num 1)]) (PName "n")
           (str "draft") (num 2) _ true).
  reflexivity.
Defined.
